(** * Dataflow evaluation and caching engine of the datapipe editor

    A shallow embedding of [src/app/feed/pipe.ts] ([mapMessage]) and of the
    evaluation engine in [src/app/feed/feedgenerator.ts] ([loadCache], the
    recalculation block of [Home], [onConnect]).

    JavaScript arrays are objects with identity: [loadCache] stores the
    array it read from an upstream cache entry into [inputData] and later
    [push]es into it.  Arrays therefore live in a store ([heap]) and bundles
    map port ids to array references; every alias of the source is an alias
    in the model. *)

From stdpp Require Import base option list gmap strings fin_maps.

Open Scope string_scope.
Open Scope list_scope.

(** ** pipe.ts *)

Module Pipe.

Inductive PipeState := Ok | BadConfig | Err.

(** [PipeMessage<T> = OkMessage<T> | BadConfigMessage | ErrMessage] *)
Inductive PipeMessage (T : Type) : Type :=
| OkMessage (fromNode : string) (value : T)
| BadConfigMessage (fromNode : string)
| ErrMessage (fromNode : string) (error : string).

Arguments OkMessage {T} fromNode value.
Arguments BadConfigMessage {T} fromNode.
Arguments ErrMessage {T} fromNode error.

Definition kind {T} (message : PipeMessage T) : PipeState :=
  match message with
  | OkMessage _ _ => Ok
  | BadConfigMessage _ => BadConfig
  | ErrMessage _ _ => Err
  end.

Definition fromNode {T} (message : PipeMessage T) : string :=
  match message with
  | OkMessage n _ => n
  | BadConfigMessage n => n
  | ErrMessage n _ => n
  end.

Definition value {T} (message : PipeMessage T) : option T :=
  match message with
  | OkMessage _ v => Some v
  | _ => None
  end.

Definition error {T} (message : PipeMessage T) : option string :=
  match message with
  | ErrMessage _ e => Some e
  | _ => None
  end.

(** [mapMessage]: the [Ok] case builds a new message, the two other cases
    [return message]. *)
Definition mapMessage {T U} (message : PipeMessage T) (map : T → U)
  : PipeMessage U :=
  match message with
  | OkMessage n v => OkMessage n (map v)
  | BadConfigMessage n => BadConfigMessage n
  | ErrMessage n e => ErrMessage n e
  end.

End Pipe.

(** ** Arrays, bundles and mappers *)

(** The store of [string[]] objects; a reference is an index. *)
Abbreviation Heap := (list (list string)).

(** [{ [key: string]: string[] }]: port id to array reference. *)
Abbreviation Bundle := (gmap string nat).

Definition readArray (h : Heap) (arr : nat) : list string :=
  default [] (h !! arr).

(** [arr.push(...values)] *)
Definition push (h : Heap) (arr : nat) (values : list string) : Heap :=
  <[arr := readArray h arr ++ values]> h.

(** A bundle read through the store: what the inspector displays. *)
Definition bundleValue (h : Heap) (b : Bundle) : gmap string (list string) :=
  readArray h <$> b.

(** What a call [mapper(inputData)] does: it returns a bundle or throws,
    and may have allocated (or written) arrays meanwhile.  A bundle object
    is written only by the loop that builds it, before anything else can
    see it, so bundles are values; the arrays in them are not. *)
Inductive MapperResult :=
| Returns (outputData : Bundle) (h : Heap)
| Throws (e : string) (h : Heap).

Definition PipeMapper := Bundle → Heap → MapperResult.

(** [PipeValue = OkPipe | BadConfigPipe | ErrPipe] *)
Inductive PipeValue :=
| OkPipe (mapper : PipeMapper)
| BadConfigPipe
| ErrPipe (error : string).

(** ** Nodes and edges *)

Record HandleInfo := {
  id : string;
  label : string;
  group : option string;
  optional : option bool
}.

Record Handles := {
  source : list HandleInfo;
  target : list HandleInfo
}.

Record NodeProperties := {
  handles : Handles;
  pipeValue : PipeValue
}.

Record Node := { data : NodeProperties }.

(** A ReactFlow edge; the handle ids are the strings the source casts them
    to ([edge.sourceHandle as string]). *)
Record Edge := {
  edgeSource : string;
  sourceHandle : string;
  edgeTarget : string;
  targetHandle : string
}.

(** The React state [loadCache] closes over. *)
Record Graph := {
  nodes : gmap string Node;
  edges : list Edge
}.

(** ** Cache entries and the session state *)

Inductive CacheEntry :=
| OutputCacheEntry (input output : Bundle)
| ErrorCacheEntry (input : Bundle) (error : string).

Definition entryInput (entry : CacheEntry) : Bundle :=
  match entry with
  | OutputCacheEntry i _ => i
  | ErrorCacheEntry i _ => i
  end.

(** [entry.output], [undefined] on an error entry. *)
Definition entryOutput (entry : CacheEntry) : option Bundle :=
  match entry with
  | OutputCacheEntry _ o => Some o
  | ErrorCacheEntry _ _ => None
  end.

(** A cache entry read through the store. *)
Inductive EntryValue :=
| OutputValue (input output : gmap string (list string))
| ErrorValue (input : gmap string (list string)) (error : string).

Definition entryValue (h : Heap) (entry : CacheEntry) : EntryValue :=
  match entry with
  | OutputCacheEntry i o => OutputValue (bundleValue h i) (bundleValue h o)
  | ErrorCacheEntry i e => ErrorValue (bundleValue h i) e
  end.

(** The two refs [pipeCache] and [pipeCacheValid], the array store, the
    console, and the trace of mapper calls (node id and argument), which
    the source does not keep and the statements below count. *)
Record Session := {
  pipeCache : gmap string CacheEntry;
  pipeCacheValid : bool;
  heap : Heap;
  console : list (string * string);
  invoked : list (string * Bundle)
}.

Definition setCache (c : gmap string CacheEntry) (s : Session) : Session :=
  {| pipeCache := c; pipeCacheValid := pipeCacheValid s; heap := heap s;
     console := console s; invoked := invoked s |}.

Definition setValid (b : bool) (s : Session) : Session :=
  {| pipeCache := pipeCache s; pipeCacheValid := b; heap := heap s;
     console := console s; invoked := invoked s |}.

Definition setHeap (h : Heap) (s : Session) : Session :=
  {| pipeCache := pipeCache s; pipeCacheValid := pipeCacheValid s; heap := h;
     console := console s; invoked := invoked s |}.

(** [console.log("ERR in node implementation: ", e)] *)
Definition consoleLog (e : string) (s : Session) : Session :=
  {| pipeCache := pipeCache s; pipeCacheValid := pipeCacheValid s;
     heap := heap s;
     console := console s ++ [("ERR in node implementation: ", e)];
     invoked := invoked s |}.

Definition recordCall (nodeID : string) (inputData : Bundle) (s : Session)
  : Session :=
  {| pipeCache := pipeCache s; pipeCacheValid := pipeCacheValid s;
     heap := heap s; console := console s;
     invoked := invoked s ++ [(nodeID, inputData)] |}.

(** How a call ends: with a value, with an exception that nothing catches,
    or not within the recursion depth allowed. *)
Inductive Outcome (A : Type) : Type :=
| Returned (a : A) (s : Session)
| Raised (e : string) (s : Session)
| OutOfFuel.

Arguments Returned {A} a s.
Arguments Raised {A} e s.
Arguments OutOfFuel {A}.

(** ** loadCache *)

(** [nodes[nodeID].data] on a missing node. *)
Definition typeError : string :=
  "TypeError: Cannot read properties of undefined (reading 'data')".

(** [!handle.optional]: an absent flag counts as not optional. *)
Definition isOptional (handle : HandleInfo) : bool :=
  default false (optional handle).

(** [(!handle.optional) && (inputData[handle.id] == undefined ||
    inputData[handle.id].length == 0)] *)
Definition missingInput (h : Heap) (inputData : Bundle) (handle : HandleInfo)
  : bool :=
  negb (isOptional handle) &&
  match inputData !! id handle with
  | None => true
  | Some arr => Nat.eqb (length (readArray h arr)) 0
  end.

(** [outputData[handle.id] == undefined] *)
Definition missingOutput (outputData : Bundle) (handle : HandleInfo) : bool :=
  bool_decide (outputData !! id handle = None).

Definition missingOutputError (nodeID : string) (handle : HandleInfo)
  : string :=
  ("Missing output data for node " ++ nodeID ++ " handle " ++ id handle)%string.

(** The loop [for (let edge of edges)] of [loadCache]; [load] is the
    recursive call. *)
Fixpoint gatherInput (load : string → Session → Outcome CacheEntry)
    (nodeID : string) (es : list Edge) (inputData : Bundle) (s : Session)
  : Outcome Bundle :=
  match es with
  | [] => Returned inputData s
  | edge :: es' =>
    if decide (edgeTarget edge = nodeID) then
      match load (edgeSource edge) s with
      | Returned entry s1 =>
        match entryOutput entry ≫= (λ o, o !! sourceHandle edge) with
        | Some handleInput =>
          match inputData !! targetHandle edge with
          | Some arr =>
            gatherInput load nodeID es' inputData
              (setHeap (push (heap s1) arr (readArray (heap s1) handleInput)) s1)
          | None =>
            gatherInput load nodeID es'
              (<[targetHandle edge := handleInput]> inputData) s1
          end
        | None => gatherInput load nodeID es' inputData s1
        end
      | Raised e s1 => Raised e s1
      | OutOfFuel => OutOfFuel
      end
    else gatherInput load nodeID es' inputData s
  end.

(** The labelled [switch (pipeValue.kind)] of [loadCache]. *)
Definition calcCache (nodeID : string) (inputHandles outputHandles : list HandleInfo)
    (pipeValue : PipeValue) (inputData : Bundle) (s : Session)
  : CacheEntry * Session :=
  match pipeValue with
  | BadConfigPipe =>
    (ErrorCacheEntry inputData "Node configuration is invalid", s)
  | ErrPipe error => (ErrorCacheEntry inputData error, s)
  | OkPipe mapper =>
    if existsb (missingInput (heap s) inputData) inputHandles
    then (ErrorCacheEntry inputData "Missing input", s)
    else
      let s1 := recordCall nodeID inputData s in
      match mapper inputData (heap s1) with
      | Returns outputData h' =>
        match List.find (missingOutput outputData) outputHandles with
        | Some handle =>
          (ErrorCacheEntry inputData "Error in node implementation",
           consoleLog (missingOutputError nodeID handle) (setHeap h' s1))
        | None => (OutputCacheEntry inputData outputData, setHeap h' s1)
        end
      | Throws e h' =>
        (ErrorCacheEntry inputData "Error in node implementation",
         consoleLog e (setHeap h' s1))
      end
  end.

(** [loadCache(nodeID)]; [fuel] bounds the depth of the recursion, which
    the source does not bound: a call that is [OutOfFuel] for every [fuel]
    is a call that never returns.  The maps stand for the plain objects of
    the code on ids that are not keys of [Object.prototype], as the ids the
    editor hands out are; [plainGraph] and [plainCache] below say so where
    a statement is about ids that need not be nodes. *)
Fixpoint loadCache (g : Graph) (fuel : nat) (nodeID : string) (s : Session)
  : Outcome CacheEntry :=
  match fuel with
  | O => OutOfFuel
  | S fuel' =>
    match pipeCache s !! nodeID with
    | Some entry => Returned entry s
    | None =>
      match nodes g !! nodeID with
      | None => Raised typeError s
      | Some node =>
        let inputHandles := target (handles (data node)) in
        match gatherInput (loadCache g fuel') nodeID (edges g) ∅ s with
        | Returned inputData s1 =>
          let outputHandles := source (handles (data node)) in
          let '(cacheEntry, s2) :=
            calcCache nodeID inputHandles outputHandles
              (pipeValue (data node)) inputData s1 in
          Returned cacheEntry
            (setCache (<[nodeID := cacheEntry]> (pipeCache s2)) s2)
        | Raised e s1 => Raised e s1
        | OutOfFuel => OutOfFuel
        end
      end
    end
  end.

(** ** The recalculation block of [Home] *)

(** [for (let nodeID in nodes) loadCache(nodeID)] over an enumeration of
    the keys. *)
Fixpoint loadAll (g : Graph) (fuel : nat) (ids : list string) (s : Session)
  : Outcome unit :=
  match ids with
  | [] => Returned tt s
  | nodeID :: rest =>
    match loadCache g fuel nodeID s with
    | Returned _ s1 => loadAll g fuel rest s1
    | Raised e s1 => Raised e s1
    | OutOfFuel => OutOfFuel
    end
  end.

(** The orders in which [for (let nodeID in nodes)] may visit the keys of
    [nodes]: every own key once.  (JavaScript takes the integer-like keys
    in ascending order and then the others in insertion order.) *)
Definition forInOrder (ns : gmap string Node) (keys : list string) : Prop :=
  NoDup keys ∧ list_to_set keys = dom ns.

(** One such order. *)
Definition forIn (ns : gmap string Node) : list string :=
  (map_to_list ns).*1.

(** [if (!pipeCacheValid.current) { pipeCache.current = {};
    for (let nodeID in nodes) loadCache(nodeID);
    pipeCacheValid.current = true }], with the keys visited in the order
    [keys]. *)
Definition recalculate (g : Graph) (keys : list string) (fuel : nat)
    (s : Session) : Outcome unit :=
  if pipeCacheValid s then Returned tt s
  else
    match loadAll g fuel keys (setCache ∅ s) with
    | Returned _ s1 => Returned tt (setValid true s1)
    | Raised e s1 => Raised e s1
    | OutOfFuel => OutOfFuel
    end.

(** ** onConnect *)

Section connect.

(** ReactFlow's [addEdge], a library function. *)
Variable addEdge : Edge → list Edge → list Edge.

(** The updater passed to [setEdges]: the new edge list and the new
    value of [pipeCacheValid.current]. *)
Fixpoint hasDuplicate (newEdge : Edge) (es : list Edge) : bool :=
  match es with
  | [] => false
  | edge :: es' =>
    if bool_decide (edgeSource edge = edgeSource newEdge)
       && bool_decide (edgeTarget edge = edgeTarget newEdge)
       && bool_decide (sourceHandle edge = sourceHandle newEdge)
       && bool_decide (targetHandle edge = targetHandle newEdge)
    then true
    else hasDuplicate newEdge es'
  end.

Definition onConnect (newEdge : Edge) (st : list Edge * bool)
  : list Edge * bool :=
  if bool_decide (edgeSource newEdge = edgeTarget newEdge) then st
  else if hasDuplicate newEdge st.1 then st
  else (addEdge newEdge st.1, false).

End connect.

(** ** Order of completion

    Vocabulary for the invariant behind memoization: [d] lists the keys
    of the memo table and [l] the keys stored since, latest first. *)

Definition enumerates (d : list string) (s : Session) : Prop :=
  NoDup d ∧ ∀ x, x ∈ d ↔ is_Some (pipeCache s !! x).

(** Every key of [l] is a node, and all sources of the edges into it were
    in the table before it was stored. *)
Fixpoint upstreamFirst (g : Graph) (l d : list string) : Prop :=
  match l with
  | [] => True
  | x :: b =>
    is_Some (nodes g !! x)
    ∧ (∀ e, e ∈ edges g → edgeTarget e = x → edgeSource e ∈ b ++ d)
    ∧ upstreamFirst g b d
  end.

(** The mapper calls made between [s] and [s']: at most one per key, and
    only for keys of [l]. *)
Definition callsWithin (s s' : Session) (l : list string) : Prop :=
  ∃ new, invoked s' = invoked s ++ new
         ∧ NoDup new.*1 ∧ ∀ x, x ∈ new.*1 → x ∈ l.

Definition grows (g : Graph) (d l : list string) (s s' : Session) : Prop :=
  enumerates (l ++ d) s' ∧ upstreamFirst g l d ∧ callsWithin s s' l.

(** [y] occurs in [l] at or before an occurrence of [x]. *)
Definition beforeEq (l : list string) (y x : string) : Prop :=
  ∃ a b, l = a ++ x :: b ∧ y ∈ a ++ [x].

Definition loadSpec (g : Graph)
    (load : string → Session → Outcome CacheEntry) : Prop :=
  ∀ n s entry s' d,
    load n s = Returned entry s' → enumerates d s →
    ∃ l, grows g d l s s' ∧ n ∈ l ++ d ∧ (l = [] ∨ ∃ l', l = n :: l').

(** The memo table holds entries of nodes only. *)
Definition cacheOfNodes (g : Graph) (s : Session) : Prop :=
  ∀ x, is_Some (pipeCache s !! x) → is_Some (nodes g !! x).

(** ** Graphs on which the recursion ends *)

(** A rank that strictly increases along every edge: the edge set has no
    cycle. *)
Definition acyclic (g : Graph) (rank : string → nat) : Prop :=
  ∀ e, e ∈ edges g → rank (edgeSource e) < rank (edgeTarget e).

(** Every edge starts at a node of the graph. *)
Definition sourcesExist (g : Graph) : Prop :=
  ∀ e, e ∈ edges g → is_Some (nodes g !! edgeSource e).

(** ** What the specification says of the input bundle *)

(** The output sequence of the upstream entry at the source port of an
    edge, read in state [s]: nothing for an error entry or an absent
    port. *)
Definition upstreamOutput (s : Session) (edge : Edge) : list string :=
  match pipeCache s !! edgeSource edge with
  | Some (OutputCacheEntry _ o) =>
    match o !! sourceHandle edge with
    | Some arr => readArray (heap s) arr
    | None => []
    end
  | _ => []
  end.

(** The input of port [p] of node [n] in the words of the specification:
    the upstream sequences of the edges into [(n, p)], concatenated in
    edge order. *)
Definition specInput (g : Graph) (s : Session) (n p : string) : list string :=
  flat_map (upstreamOutput s)
    (filter (λ e, edgeTarget e = n ∧ targetHandle e = p) (edges g)).

(** ** Node types of nodes.tsx and sample graphs *)

Definition TextInputNode_handles : Handles :=
  {| source := [{| id := "text-out"; label := "Text"; group := None;
                   optional := None |}];
     target := [] |}.

Definition RegexNode_handles : Handles :=
  {| source := [{| id := "data-out"; label := "OUT"; group := None;
                   optional := None |}];
     target := [{| id := "data-in"; label := "IN"; group := None;
                   optional := None |}] |}.

Definition FeedOutputNode_handles : Handles :=
  {| source := [{| id := "feed-out"; label := "Feed"; group := None;
                   optional := None |}];
     target :=
       [{| id := "title"; label := "Title"; group := Some "feed";
           optional := None |};
        {| id := "link"; label := "Link"; group := Some "feed";
           optional := None |};
        {| id := "description"; label := "Description"; group := Some "feed";
           optional := None |};
        {| id := "language"; label := "Language"; group := Some "feed";
           optional := Some true |};
        {| id := "item-title"; label := "Title"; group := Some "item";
           optional := None |};
        {| id := "item-link"; label := "Link"; group := Some "item";
           optional := None |};
        {| id := "item-description"; label := "Description";
           group := Some "item"; optional := Some true |};
        {| id := "item-author"; label := "Author"; group := Some "item";
           optional := Some true |}] |}.

(** The mapper of [TextInputNode], [() => ({"text-out": [text]})]: a new
    array at every call. *)
Definition textMapper (text : string) : PipeMapper :=
  λ _ h, Returns {["text-out" := length h]} (h ++ [[text]]).

(** The shape of the mappers of [RegexNode] and [XPathNode]:
    [input["data-in"].flatMap(f)] into a new array under ["data-out"]. *)
Definition flatMapper (f : string → list string) : PipeMapper :=
  λ inputData h,
    match inputData !! "data-in" with
    | Some arr =>
      Returns {["data-out" := length h]} (h ++ [flat_map f (readArray h arr)])
    | None =>
      Throws "TypeError: Cannot read properties of undefined (reading 'flatMap')" h
    end.

(** A mapper that throws, and a stand-in for the feed serializer, which
    the engine treats as any other mapper. *)
Definition throwingMapper : PipeMapper := λ _ h, Throws "boom" h.

Definition feedStandIn : PipeMapper :=
  λ _ h, Returns {["feed-out" := length h]} (h ++ [["<rss/>"]]).

Definition mkNode (hs : Handles) (pv : PipeValue) : Node :=
  {| data := {| handles := hs; pipeValue := pv |} |}.

Definition mkEdge (src srcPort tgt tgtPort : string) : Edge :=
  {| edgeSource := src; sourceHandle := srcPort;
     edgeTarget := tgt; targetHandle := tgtPort |}.

(** The session at the first render. *)
Definition s0 : Session :=
  {| pipeCache := ∅; pipeCacheValid := false; heap := []; console := [];
     invoked := [] |}.

Definition stateOf {A} (o : Outcome A) : Session :=
  match o with
  | Returned _ s => s
  | Raised _ s => s
  | OutOfFuel => s0
  end.

(** Two text inputs wired to the one input port of a third node. *)
Definition aggregationNodes (mapper : PipeMapper) : gmap string Node :=
  <["0" := mkNode TextInputNode_handles (OkPipe (textMapper "a"))]>
  (<["1" := mkNode TextInputNode_handles (OkPipe (textMapper "b"))]>
  (<["2" := mkNode RegexNode_handles (OkPipe mapper)]> ∅)).

Definition aggregationGraph (mapper : PipeMapper) : Graph :=
  {| nodes := aggregationNodes mapper;
     edges := [mkEdge "0" "text-out" "2" "data-in";
               mkEdge "1" "text-out" "2" "data-in"] |}.

(** Two text inputs wired to the feed node: the first to [title] and to
    [link], the second to [title]. *)
Definition feedNodes (feedMapper : PipeMapper) : gmap string Node :=
  <["0" := mkNode TextInputNode_handles (OkPipe (textMapper "a"))]>
  (<["1" := mkNode TextInputNode_handles (OkPipe (textMapper "b"))]>
  (<["Feed" := mkNode FeedOutputNode_handles (OkPipe feedMapper)]> ∅)).

Definition feedGraph (feedMapper : PipeMapper) : Graph :=
  {| nodes := feedNodes feedMapper;
     edges := [mkEdge "0" "text-out" "Feed" "title";
               mkEdge "0" "text-out" "Feed" "link";
               mkEdge "1" "text-out" "Feed" "title"] |}.

(** One text input wired to every required port of the feed node; the
    optional ports are left free. *)
Definition fullFeedGraph : Graph :=
  {| nodes :=
       <["0" := mkNode TextInputNode_handles (OkPipe (textMapper "a"))]>
       (<["Feed" := mkNode FeedOutputNode_handles (OkPipe feedStandIn)]> ∅);
     edges := [mkEdge "0" "text-out" "Feed" "title";
               mkEdge "0" "text-out" "Feed" "link";
               mkEdge "0" "text-out" "Feed" "description";
               mkEdge "0" "text-out" "Feed" "item-title";
               mkEdge "0" "text-out" "Feed" "item-link"] |}.

(** An edge from a node that does not exist. *)
Definition danglingGraph : Graph :=
  {| nodes := <["2" := mkNode RegexNode_handles (OkPipe (flatMapper (λ v, [v])))]> ∅;
     edges := [mkEdge "9" "text-out" "2" "data-in"] |}.

(** ReactFlow's [addEdge] on a list without the new edge appends it. *)
Definition appendEdge (e : Edge) (es : list Edge) : list Edge := es ++ [e].

(** ** The update channel *)

(** The pipe value [handleNodeMessage] writes for a message. *)
Definition pipeValueOf (message : Pipe.PipeMessage PipeMapper) : PipeValue :=
  match message with
  | Pipe.OkMessage _ mapper => OkPipe mapper
  | Pipe.BadConfigMessage _ => BadConfigPipe
  | Pipe.ErrMessage _ error => ErrPipe error
  end.

(** [handleNodeMessage]: the flag is cleared first; the updater given to
    [setNodes] then copies the node of [message.fromNode] with its new
    [pipeValue], and throws ([nodes[message.fromNode].data] on
    [undefined], here [None]) when there is no such node. *)
Definition handleNodeMessage (message : Pipe.PipeMessage PipeMapper)
    (g : Graph) (s : Session) : option Graph * Session :=
  (match nodes g !! Pipe.fromNode message with
   | Some node =>
     Some {| nodes :=
               <[Pipe.fromNode message :=
                   {| data := {| handles := handles (data node);
                                 pipeValue := pipeValueOf message |} |}]>
                 (nodes g);
             edges := edges g |}
   | None => None
   end,
   setValid false s).

(** The entries [loadCache] can store for a node, by its pipe value. *)
Definition entryFits (node : Node) (entry : CacheEntry) : Prop :=
  match pipeValue (data node), entry with
  | BadConfigPipe, ErrorCacheEntry _ e => e = "Node configuration is invalid"
  | ErrPipe error, ErrorCacheEntry _ e => e = error
  | OkPipe _, ErrorCacheEntry _ e =>
    e = "Missing input" ∨ e = "Error in node implementation"
  | OkPipe _, OutputCacheEntry i o =>
    (∀ handle, handle ∈ target (handles (data node)) →
       isOptional handle = false → is_Some (i !! id handle))
    ∧ ∀ handle, handle ∈ source (handles (data node)) → is_Some (o !! id handle)
  | _, OutputCacheEntry _ _ => False
  end.

Definition cacheFits (g : Graph) (s : Session) : Prop :=
  ∀ x entry node,
    pipeCache s !! x = Some entry → nodes g !! x = Some node →
    entryFits node entry.

(** ** Graphs on which the recalculation returns *)

(** The edges into nodes start at nodes and climb in rank. *)
Definition resolvable (g : Graph) (rank : string → nat) : Prop :=
  ∀ e, e ∈ edges g → is_Some (nodes g !! edgeTarget e) →
    is_Some (nodes g !! edgeSource e)
    ∧ rank (edgeSource e) < rank (edgeTarget e).

(** The place of a key in a list, counted from the end; [0] when absent. *)
Fixpoint rankIn (l : list string) (x : string) : nat :=
  match l with
  | [] => 0
  | y :: b => if decide (x = y) then S (length b) else rankIn b x
  end.

(** No edge of the list runs from a node to itself. *)
Definition noSelfLoop (es : list Edge) : Prop :=
  ∀ e, e ∈ es → edgeSource e ≠ edgeTarget e.

(** ** Mappers and ports under which arrays are not shared *)

(** A mapper that only allocates: the arrays it finds keep their
    contents. *)
Definition allocates (mapper : PipeMapper) : Prop :=
  ∀ inputData h,
    match mapper inputData h with
    | Returns _ h' => h `prefix_of` h'
    | Throws _ h' => h `prefix_of` h'
    end.

Definition mappersAllocate (g : Graph) : Prop :=
  ∀ n node mapper,
    nodes g !! n = Some node → pipeValue (data node) = OkPipe mapper →
    allocates mapper.

(** Every input port is the target of at most one edge. *)
Definition singleEdgePorts (g : Graph) : Prop :=
  NoDup ((λ e, (edgeTarget e, targetHandle e)) <$> edges g).

(** The array an edge reads from the entry of its source, if any. *)
Definition edgeArray (s : Session) (e : Edge) : option nat :=
  match pipeCache s !! edgeSource e with
  | Some entry => entryOutput entry ≫= (λ o, o !! sourceHandle e)
  | None => None
  end.

(** The arrays the loop of node [n] reads, in edge order. *)
Definition arraysRead (s : Session) (n : string) (es : list Edge) : list nat :=
  omap (edgeArray s) (filter (λ e, edgeTarget e = n) es).

(** The concatenation the specification asks for, over the edges [es]. *)
Definition specRest (s : Session) (n p : string) (es : list Edge)
  : list string :=
  flat_map (upstreamOutput s)
    (filter (λ e, edgeTarget e = n ∧ targetHandle e = p) es).

(** ** nodes.tsx: labels and the layout of handles *)

(** [truncateLabel], on a label as its sequence of UTF-16 code units (the
    unit of [length] and [substring]); the ellipsis is the one unit
    [U+2026]. *)
Definition ellipsis : N := 8230%N.

Definition truncateLabel (label : list N) : list N :=
  if decide (5 < length label) then take 4 label ++ [ellipsis] else label.

(** [groupedHandles[group].push(handle)], creating the group at its first
    handle; the object keeps its keys in the order they were added (the
    group names of nodes.tsx are not integer-like). *)
Fixpoint pushGrouped (grp : string) (handle : HandleInfo)
    (grouped : list (string * list HandleInfo))
  : list (string * list HandleInfo) :=
  match grouped with
  | [] => [(grp, [handle])]
  | (k, hs) :: rest =>
    if decide (k = grp) then (k, hs ++ [handle]) :: rest
    else (k, hs) :: pushGrouped grp handle rest
  end.

(** The first loop of [renderHandles], which is also the loop of
    [InspectBoxPreview]: [ungroupedHandles] and [groupedHandles]. *)
Definition groupStep (acc : list HandleInfo * list (string * list HandleInfo))
    (handle : HandleInfo) : list HandleInfo * list (string * list HandleInfo) :=
  match group handle with
  | None => (acc.1 ++ [handle], acc.2)
  | Some grp => (acc.1, pushGrouped grp handle acc.2)
  end.

Definition groupHandles (hs : list HandleInfo)
  : list HandleInfo * list (string * list HandleInfo) :=
  foldl groupStep ([], []) hs.

(** What [renderHandles] puts at a position: a handle, or the label and
    frame of a group of the given size. *)
Inductive Placed :=
| HandleAt (handle : HandleInfo) (position : nat)
| GroupAt (grp : string) (position : nat) (size : nat).

(** [for (let handle of ...) { handlePosition += 1; elements.push(...) }] *)
Fixpoint placeHandles (position : nat) (hs : list HandleInfo)
  : list Placed * nat :=
  match hs with
  | [] => ([], position)
  | handle :: rest =>
    let r := placeHandles (S position) rest in
    (HandleAt handle (S position) :: r.1, r.2)
  end.

(** [for (let group in groupedHandles) { ... }]: one position for the
    label, one per handle, and one left free after the group. *)
Fixpoint placeGroups (position : nat)
    (grouped : list (string * list HandleInfo)) : list Placed * nat :=
  match grouped with
  | [] => ([], position)
  | (grp, hs) :: rest =>
    let inner := placeHandles (S position) hs in
    let r := placeGroups (S inner.2) rest in
    (GroupAt grp (S position) (length hs) :: inner.1 ++ r.1, r.2)
  end.

(** [renderHandles]: the elements and the number of positions used. *)
Definition renderHandles (hs : list HandleInfo) : list Placed * nat :=
  let grouped := groupHandles hs in
  let u := placeHandles 0 grouped.1 in
  let r := placeGroups u.2 grouped.2 in
  (u.1 ++ r.1, r.2).

(** The denominator of [handleOffset]. *)
Definition offsetDenominator (hs : list HandleInfo) : nat :=
  1 + length hs + length (groupHandles hs).2 * 2.

Definition placedHandles (els : list Placed) : list (HandleInfo * nat) :=
  omap (λ el, match el with
              | HandleAt handle position => Some (handle, position)
              | GroupAt _ _ _ => None
              end) els.

(** ** Entries as results of the mappers *)

(** Every output entry of a ready node is what its mapper returned on the
    input of the entry, and the arrays of that state are still there. *)
Definition mapperResults (g : Graph) (s : Session) : Prop :=
  ∀ x node mapper i o,
    pipeCache s !! x = Some (OutputCacheEntry i o) →
    nodes g !! x = Some node → pipeValue (data node) = OkPipe mapper →
    ∃ h h', mapper i h = Returns o h' ∧ h' `prefix_of` heap s.

(** ** demonode.tsx *)

(** The effect of [DemoInputNode], run after every render: it sends the
    document, unless the pipe of the node is [Ok] already. *)
Definition DemoInputNode_effect (DEMO_DOCUMENT : string) (nodeID : string)
    (pv : PipeValue) : option (Pipe.PipeMessage PipeMapper) :=
  match pv with
  | OkPipe _ => None
  | _ => Some (Pipe.OkMessage nodeID (textMapper DEMO_DOCUMENT))
  end.

(** ** More sample graphs *)

(** A text input wired to a node of the regex shape. *)
Definition chainGraph : Graph :=
  {| nodes :=
       <["0" := mkNode TextInputNode_handles (OkPipe (textMapper "hello"))]>
       (<["2" := mkNode RegexNode_handles (OkPipe (flatMapper (λ v, [v])))]> ∅);
     edges := [mkEdge "0" "text-out" "2" "data-in"] |}.

(** The same with the text input not yet configured, as [newNode] leaves
    it. *)
Definition unconfiguredGraph : Graph :=
  {| nodes :=
       <["0" := mkNode TextInputNode_handles BadConfigPipe]>
       (<["2" := mkNode RegexNode_handles (OkPipe (flatMapper (λ v, [v])))]> ∅);
     edges := [mkEdge "0" "text-out" "2" "data-in"] |}.

(** ** XML documents: [newDocument] *)

(** The part of the DOM that [newDocument] and the feed node use: elements
    with a tag name, attributes in the order they were set, and child
    nodes, and text nodes.  Every element made here is appended once, so
    a tree is enough. *)
#[warnings="-register-all"]
Inductive XMLNode :=
| Element (tagName : string) (attributes : list (string * string))
    (childNodes : list XMLNode)
| TextNode (data : string).

(** An [XMLDocument] by its child nodes. *)
Abbreviation XMLDocument := (list XMLNode).

(** [element.setAttribute(name, value)]: an attribute of that name is
    overwritten, otherwise a new one is added last. *)
Definition setAttribute (attributes : list (string * string))
    (name value : string) : list (string * string) :=
  if bool_decide (name ∈ attributes.*1)
  then (λ a, if decide (a.1 = name) then (name, value) else a) <$> attributes
  else attributes ++ [(name, value)].

(** A value where the DOM expects a string: [undefined] becomes
    ["undefined"]. *)
Definition jsString (v : option string) : string := default "undefined" v.

(** [createElement(name, children?, attributes?, text?)]; the attributes
    object by its keys in for-in order. *)
Definition createElement (name : string) (children : option (list XMLNode))
    (attributes : option (list (string * string))) (text : option string)
  : XMLNode :=
  Element name
    (foldl (λ attrs a, setAttribute attrs a.1 a.2) [] (default [] attributes))
    (default [] children
     ++ match text with Some t => [TextNode t] | None => [] end).

(** ** The mapper of [FeedOutputNode] *)

Inductive FeedType := RSS | Atom.

(** [...v != undefined ? [f(v)] : []] *)
Definition spreadIf {A} (v : option string) (f : string → A) : list A :=
  match v with Some x => [f x] | None => [] end.

(** The element pushed to [items] at index [i]. *)
Definition feedItem (feedType : FeedType) (itemTitle itemLink : list string)
    (itemDescription itemAuthor : option (list string)) (i : nat) : XMLNode :=
  match feedType with
  | Atom =>
    createElement "entry" (Some (
      spreadIf (itemTitle !! i) (λ v,
        createElement "title" (Some []) (Some [("type", "text")]) (Some v))
      ++ spreadIf (itemLink !! i) (λ v,
        createElement "link" (Some []) (Some [("href", v)]) None)
      ++ spreadIf (itemDescription ≫= (λ l, l !! i)) (λ v,
        createElement "summary" (Some []) (Some [("type", "text")]) (Some v))
      ++ spreadIf (itemAuthor ≫= (λ l, l !! i)) (λ v,
        createElement "author"
          (Some [createElement "name" (Some []) (Some [("type", "text")])
                   (Some v)]) None None))) None None
  | RSS =>
    createElement "item" (Some (
      spreadIf (itemTitle !! i) (λ v,
        createElement "title" (Some []) (Some []) (Some v))
      ++ spreadIf (itemLink !! i) (λ v,
        createElement "link" (Some []) (Some []) (Some v))
      ++ spreadIf (itemDescription ≫= (λ l, l !! i)) (λ v,
        createElement "description" (Some []) (Some []) (Some v))
      ++ spreadIf (itemAuthor ≫= (λ l, l !! i)) (λ v,
        createElement "author" (Some []) (Some []) (Some v)))) None None
  end.

(** [Math.max(itemTitle.length, itemDescription?.length ?? 0)] *)
Definition itemCount (itemTitle : list string)
    (itemDescription : option (list string)) : nat :=
  length itemTitle `max` from_option length 0 itemDescription.

(** The root element appended to the document. *)
Definition feedRoot (feedType : FeedType)
    (titleList linkList descriptionList : list string)
    (languageList : option (list string)) (items : list XMLNode) : XMLNode :=
  match feedType with
  | Atom =>
    createElement "feed"
      (Some ([createElement "title" (Some []) (Some [("type", "text")])
                (titleList !! 0);
              createElement "subtitle" (Some []) (Some [("type", "text")])
                (descriptionList !! 0);
              createElement "link" (Some [])
                (Some [("href", jsString (linkList !! 0))]) None]
             ++ items))
      (Some ([("xmlns", "http://www.w3.org/2005/Atom")]
             ++ match languageList with
                | Some l => [("lang", jsString (l !! 0))]
                | None => []
                end))
      None
  | RSS =>
    createElement "rss"
      (Some [createElement "channel"
               (Some ([createElement "title" (Some []) (Some [])
                         (titleList !! 0);
                       createElement "link" (Some []) (Some [])
                         (linkList !! 0);
                       createElement "description" (Some []) (Some [])
                         (descriptionList !! 0)]
                      ++ match languageList with
                         | Some l => [createElement "language" (Some [])
                                        (Some []) (l !! 0)]
                         | None => []
                         end
                      ++ items))
               None None])
      None None
  end.

(** Reading a property of [undefined]. *)
Definition readError (property : string) : string :=
  ("TypeError: Cannot read properties of undefined (reading '"
   ++ property ++ "')")%string.

(** [input[p]] read through the store; [None] is [undefined]. *)
Definition portValue (h : Heap) (input : Bundle) (p : string)
  : option (list string) :=
  readArray h <$> input !! p.

(** [map] of [FeedOutputNode], for the feed type the effect closed over;
    [serializeToString] is the browser's [XMLSerializer].  A port absent
    from the bundle is [undefined]: [itemTitle.length] throws then, so
    does [itemLink[i]] in the first round of the loop, and [titleList[0]],
    [linkList[0]] and [descriptionList[0]] after it, all with the same
    message.  The result is a new one-element array. *)
Definition FeedOutputNode_map (serializeToString : XMLDocument → string)
    (feedType : FeedType) : PipeMapper :=
  λ input h,
    let port := portValue h input in
    match port "item-title" with
    | None => Throws (readError "length") h
    | Some itemTitle =>
      let count := itemCount itemTitle (port "item-description") in
      match count, port "item-link" with
      | S _, None => Throws (readError "0") h
      | _, itemLink =>
        let items :=
          feedItem feedType itemTitle (default [] itemLink)
            (port "item-description") (port "item-author") <$> seq 0 count in
        match port "title", port "link", port "description" with
        | Some titleList, Some linkList, Some descriptionList =>
          let root :=
            feedRoot feedType titleList linkList descriptionList
              (port "language") items in
          Returns {["feed-out" := length h]}
            (h ++ [[serializeToString [root]]])
        | _, _, _ => Throws (readError "0") h
        end
      end
    end.

(** The effect of [FeedOutputNode]: the mapper is sent as an [Ok] message;
    building the closure throws nothing, so the [catch] is never taken. *)
Definition FeedOutputNode_effect (serializeToString : XMLDocument → string)
    (nodeID : string) (feedType : FeedType) : Pipe.PipeMessage PipeMapper :=
  Pipe.OkMessage nodeID (FeedOutputNode_map serializeToString feedType).

(** ** Reading a feed document back *)

Definition tagOf (n : XMLNode) : option string :=
  match n with Element name _ _ => Some name | TextNode _ => None end.

Definition childrenOf (n : XMLNode) : list XMLNode :=
  match n with Element _ _ c => c | TextNode _ => [] end.

Definition getAttribute (name : string) (n : XMLNode) : option string :=
  match n with
  | Element _ attrs _ => snd <$> List.find (λ a, bool_decide (a.1 = name)) attrs
  | TextNode _ => None
  end.

(** [node.textContent] *)
Fixpoint textContent (n : XMLNode) : string :=
  match n with
  | TextNode d => d
  | Element _ _ c => String.concat "" (List.map textContent c)
  end.

Definition elementsNamed (name : string) (l : list XMLNode) : list XMLNode :=
  filter (λ n, tagOf n = Some name) l.

(** The element that carries the header fields and the items:
    [rss/channel] or [feed]. *)
Definition feedChannel (feedType : FeedType) (doc : XMLDocument)
  : list XMLNode :=
  match feedType with
  | RSS => elementsNamed "channel" (elementsNamed "rss" doc ≫= childrenOf)
  | Atom => elementsNamed "feed" doc
  end.

(** The items of a feed document: [rss/channel/item] or [feed/entry]. *)
Definition feedEntries (feedType : FeedType) (doc : XMLDocument)
  : list XMLNode :=
  elementsNamed (match feedType with RSS => "item" | Atom => "entry" end)
    (feedChannel feedType doc ≫= childrenOf).

Inductive ItemField := ItemTitle | ItemLink | ItemDescription | ItemAuthor.

(** A field of an item as a feed reader finds it: the text of the first
    child of the field's name, for an Atom link its [href]. *)
Definition itemField (feedType : FeedType) (field : ItemField)
    (item : XMLNode) : option string :=
  let child name := head (elementsNamed name (childrenOf item)) in
  match feedType, field with
  | _, ItemTitle => textContent <$> child "title"
  | RSS, ItemLink => textContent <$> child "link"
  | Atom, ItemLink => child "link" ≫= getAttribute "href"
  | RSS, ItemDescription => textContent <$> child "description"
  | Atom, ItemDescription => textContent <$> child "summary"
  | _, ItemAuthor => textContent <$> child "author"
  end.

Inductive FeedField := FeedTitle | FeedLink | FeedDescription | FeedLanguage.

(** A header field as a feed reader finds it. *)
Definition feedField (feedType : FeedType) (field : FeedField)
    (doc : XMLDocument) : option string :=
  match head (feedChannel feedType doc) with
  | Some channel =>
    let child name := head (elementsNamed name (childrenOf channel)) in
    match feedType, field with
    | _, FeedTitle => textContent <$> child "title"
    | RSS, FeedLink => textContent <$> child "link"
    | Atom, FeedLink => child "link" ≫= getAttribute "href"
    | RSS, FeedDescription => textContent <$> child "description"
    | Atom, FeedDescription => textContent <$> child "subtitle"
    | RSS, FeedLanguage => textContent <$> child "language"
    | Atom, FeedLanguage => getAttribute "lang" channel
    end
  | None => None
  end.

(** The ports of the feed node that are not optional. *)
Definition requiredFeedPorts : list string :=
  ["title"; "link"; "description"; "item-title"; "item-link"].

(** ** Sample feed input *)

(** A stand-in for the browser's serializer: the text of the document. *)
Definition sampleSerializer : XMLDocument → string :=
  λ doc, String.concat "" (List.map textContent doc).

(** Two titles and three links for the items. *)
Definition sampleFeedHeap : Heap :=
  [["News"]; ["http://news.example"]; ["About"]; ["one"; "two"];
   ["http://news.example/1"; "http://news.example/2";
    "http://news.example/3"]].

Definition sampleFeedInput : Bundle :=
  <["title" := 0]> (<["link" := 1]> (<["description" := 2]>
    (<["item-title" := 3]> (<["item-link" := 4]> ∅)))).

(** ** Plain objects as maps *)

(** [pipeCache.current], [nodes], the bundles and the outputs of the
    mappers are plain objects, and [o[k]] on a plain object also finds
    what [Object.prototype] has under [k].  These are its keys. *)
Definition objectPrototypeKeys : list string :=
  ["constructor"; "__proto__"; "hasOwnProperty"; "isPrototypeOf";
   "propertyIsEnumerable"; "toLocaleString"; "toString"; "valueOf";
   "__defineGetter__"; "__defineSetter__"; "__lookupGetter__";
   "__lookupSetter__"].

(** A key under which a plain object holds its own properties only. *)
Definition ownKey (k : string) : Prop := k ∉ objectPrototypeKeys.

#[global] Instance ownKey_dec k : Decision (ownKey k).
Proof. unfold ownKey. apply _. Defined.

(** [o[k]] as the code evaluates it. *)
Inductive Property (A : Type) :=
| OwnProperty (a : A)
| InheritedProperty
| UndefinedProperty.

Arguments OwnProperty {A} a.
Arguments InheritedProperty {A}.
Arguments UndefinedProperty {A}.

Definition getProperty {A} (o : gmap string A) (k : string) : Property A :=
  match o !! k with
  | Some a => OwnProperty a
  | None =>
    if bool_decide (k ∈ objectPrototypeKeys) then InheritedProperty
    else UndefinedProperty
  end.

(** The graphs and tables on which the lookups [m !! k] of [loadCache] are
    the lookups [o[k]] of the code: no node id, no source of an edge, no
    port of an edge and no key of the table is a key of
    [Object.prototype].  The ids the editor hands out (["Feed"] and
    decimal numbers) and the ports the nodes declare are such. *)
Definition plainGraph (g : Graph) : Prop :=
  map_Forall (λ k _, ownKey k) (nodes g)
  ∧ Forall (λ e, ownKey (edgeSource e) ∧ ownKey (sourceHandle e)
                 ∧ ownKey (targetHandle e)) (edges g).

Definition plainCache (s : Session) : Prop :=
  map_Forall (λ k _, ownKey k) (pipeCache s).

(** ** More sample graphs: the feed node wired *)

(** A text input wired to the five required ports of the feed node, and to
    a node of the regex shape that finds no match; the empty output of
    that node is wired to the optional port [language]. *)
Definition emptyLanguageGraph : Graph :=
  {| nodes :=
       <["0" := mkNode TextInputNode_handles (OkPipe (textMapper "a"))]>
       (<["2" := mkNode RegexNode_handles (OkPipe (flatMapper (λ _, [])))]>
       (<["Feed" := mkNode FeedOutputNode_handles (OkPipe feedStandIn)]> ∅));
     edges := [mkEdge "0" "text-out" "Feed" "title";
               mkEdge "0" "text-out" "Feed" "link";
               mkEdge "0" "text-out" "Feed" "description";
               mkEdge "0" "text-out" "Feed" "item-title";
               mkEdge "0" "text-out" "Feed" "item-link";
               mkEdge "0" "text-out" "2" "data-in";
               mkEdge "2" "data-out" "Feed" "language"] |}.

(** Five text inputs, one for each required port of the feed node with its
    real mapper. *)
Definition wiredFeedGraph (serializeToString : XMLDocument → string)
    (feedType : FeedType) : Graph :=
  {| nodes :=
       <["0" := mkNode TextInputNode_handles (OkPipe (textMapper "News"))]>
       (<["1" := mkNode TextInputNode_handles
                   (OkPipe (textMapper "http://news.example"))]>
       (<["2" := mkNode TextInputNode_handles (OkPipe (textMapper "About"))]>
       (<["3" := mkNode TextInputNode_handles (OkPipe (textMapper "one"))]>
       (<["4" := mkNode TextInputNode_handles
                   (OkPipe (textMapper "http://news.example/1"))]>
       (<["Feed" := mkNode FeedOutputNode_handles
                      (OkPipe (FeedOutputNode_map serializeToString
                                 feedType))]> ∅)))));
     edges := [mkEdge "0" "text-out" "Feed" "title";
               mkEdge "1" "text-out" "Feed" "link";
               mkEdge "2" "text-out" "Feed" "description";
               mkEdge "3" "text-out" "Feed" "item-title";
               mkEdge "4" "text-out" "Feed" "item-link"] |}.

(** The bundle the loop builds for the feed node of [emptyLanguageGraph]:
    array [0] is the output of the text input, array [1] the empty output
    of the regex node. *)
Definition emptyLanguageBundle : Bundle :=
  <["title" := 0]> (<["link" := 0]> (<["description" := 0]>
    (<["item-title" := 0]> (<["item-link" := 0]> (<["language" := 1]> ∅))))).

(** * Properties *)

(** ** Elementary facts about [loadCache] *)

Lemma loadCache_hit g fuel nodeID s entry :
  pipeCache s !! nodeID = Some entry →
  loadCache g (S fuel) nodeID s = Returned entry s.
Proof. intros H. simpl. by rewrite H. Qed.

Lemma loadCache_missing_node g fuel nodeID s :
  pipeCache s !! nodeID = None → nodes g !! nodeID = None →
  loadCache g (S fuel) nodeID s = Raised typeError s.
Proof. intros Hc Hn. simpl. by rewrite Hc, Hn. Qed.

(** The miss path, with the loop already run. *)
Lemma loadCache_miss g fuel nodeID s node inputData s1 :
  pipeCache s !! nodeID = None → nodes g !! nodeID = Some node →
  gatherInput (loadCache g fuel) nodeID (edges g) ∅ s = Returned inputData s1 →
  loadCache g (S fuel) nodeID s =
    let r := calcCache nodeID (target (handles (data node)))
               (source (handles (data node))) (pipeValue (data node))
               inputData s1 in
    Returned r.1 (setCache (<[nodeID := r.1]> (pipeCache r.2)) r.2).
Proof.
  intros Hc Hn Hg. simpl. rewrite Hc, Hn, Hg.
  by destruct (calcCache _ _ _ _ _ _).
Qed.

(** A returned entry is the one now stored. *)
Lemma loadCache_stored g fuel nodeID s entry s' :
  loadCache g fuel nodeID s = Returned entry s' →
  pipeCache s' !! nodeID = Some entry.
Proof.
  destruct fuel as [|fuel]; simpl; [done|].
  destruct (pipeCache s !! nodeID) as [e0|] eqn:Hc.
  - intros [= <- <-]. done.
  - destruct (nodes g !! nodeID) as [node|]; [|done].
    destruct (gatherInput _ _ _ _ _) as [inputData s1| |]; try done.
    destruct (calcCache _ _ _ _ _ _) as [cacheEntry s2].
    intros [= <- <-]. simpl. apply lookup_insert_eq.
Qed.

(** [calcCache] touches neither ref. *)
Lemma calcCache_pipeCache nodeID ihs ohs pv inputData s :
  pipeCache (calcCache nodeID ihs ohs pv inputData s).2 = pipeCache s.
Proof.
  unfold calcCache. destruct pv as [mapper| |]; try done.
  destruct (existsb _ _); [done|].
  destruct (mapper _ _) as [o h'|e h']; [|done].
  by destruct (List.find _ _).
Qed.

(** It calls the mapper at most once, on the bundle it was given. *)
Lemma calcCache_invoked nodeID ihs ohs pv inputData s :
  let s' := (calcCache nodeID ihs ohs pv inputData s).2 in
  invoked s' = invoked s ∨ invoked s' = invoked s ++ [(nodeID, inputData)].
Proof.
  unfold calcCache. destruct pv as [mapper| |]; simpl; auto.
  destruct (existsb _ _); simpl; auto.
  destruct (mapper _ _) as [o h'|e h']; simpl; auto.
  destruct (List.find _ _); simpl; auto.
Qed.

(** ** The completion order *)

Lemma upstreamFirst_app g l2 l1 d :
  upstreamFirst g (l2 ++ l1) d ↔
  upstreamFirst g l2 (l1 ++ d) ∧ upstreamFirst g l1 d.
Proof.
  induction l2 as [|x l2 IH]; simpl; [tauto|].
  rewrite IH, <- (assoc_L (++)). tauto.
Qed.

Lemma upstreamFirst_nodes g l d x :
  upstreamFirst g l d → x ∈ l → is_Some (nodes g !! x).
Proof.
  induction l as [|y l IH]; simpl; [by intros _ ?%elem_of_nil|].
  intros (Hy & _ & Hl) [->|Hx]%elem_of_cons; auto.
Qed.

Lemma grows_refl g d s : enumerates d s → grows g d [] s s.
Proof.
  intros Hd. split; [done|]. split; [done|].
  exists []. rewrite app_nil_r. split; [done|]. split; [constructor|].
  by intros x ?%elem_of_nil.
Qed.

Lemma grows_trans g d l1 l2 s s1 s2 :
  grows g d l1 s s1 → grows g (l1 ++ d) l2 s1 s2 →
  grows g d (l2 ++ l1) s s2.
Proof.
  intros (He1 & Hu1 & new1 & Hi1 & Hn1 & Hs1)
         (He2 & Hu2 & new2 & Hi2 & Hn2 & Hs2).
  split; [by rewrite <- (assoc_L (++))|].
  split; [by apply upstreamFirst_app|].
  exists (new1 ++ new2). split; [by rewrite Hi2, Hi1, (assoc_L (++))|].
  rewrite fmap_app. split.
  - apply NoDup_app. split; [done|]. split; [|done].
    intros x Hx1 Hx2. destruct He2 as [Hnd _].
    apply NoDup_app in Hnd as (_ & Hdisj & _).
    apply (Hdisj x); [by apply Hs2|]. apply elem_of_app. left. by apply Hs1.
  - intros x [?|?]%elem_of_app; apply elem_of_app; auto.
Qed.

Lemma grows_setHeap g d l s s' h :
  grows g d l s s' → grows g d l s (setHeap h s').
Proof. by intros (He & Hu & Hc). Qed.

Lemma beforeEq_app_l l2 l1 y x : beforeEq l2 y x → beforeEq (l2 ++ l1) y x.
Proof.
  intros (a & b & -> & Hy). exists a, (b ++ l1).
  by rewrite <- (assoc_L (++)).
Qed.

Lemma beforeEq_app_r l2 l1 y x : beforeEq l1 y x → beforeEq (l2 ++ l1) y x.
Proof.
  intros (a & b & -> & Hy). exists (l2 ++ a), b.
  rewrite <- !(assoc_L (++)). split; [done|].
  apply elem_of_app. by right.
Qed.

Lemma beforeEq_head n l x : x ∈ n :: l → beforeEq (n :: l) n x.
Proof.
  intros [->|Hx]%elem_of_cons.
  - exists [], l. split; [done|]. by apply list_elem_of_singleton.
  - apply list_elem_of_split in Hx as (a & b & ->).
    exists (n :: a), b. split; [done|]. simpl. apply elem_of_cons. by left.
Qed.

(** A key cannot come after one of its own sources. *)
Lemma upstreamFirst_not_before g l d e x :
  NoDup (l ++ d) → upstreamFirst g l d →
  e ∈ edges g → edgeTarget e = x → beforeEq l (edgeSource e) x → False.
Proof.
  intros Hnd Hu He Ht (a & b & -> & Hy).
  apply upstreamFirst_app in Hu as [_ Hu].
  change (x :: b) with ([x] ++ b) in Hu.
  change (a ++ x :: b) with (a ++ [x] ++ b) in Hnd.
  simpl in Hu. destruct Hu as (_ & Hsrc & _).
  rewrite (assoc_L (++)), <- (assoc_L (++) _ b d) in Hnd.
  apply NoDup_app in Hnd as (_ & Hdisj & _).
  apply (Hdisj _ Hy). by apply Hsrc.
Qed.

Section gather.

Variable g : Graph.
Variable load : string → Session → Outcome CacheEntry.
Hypothesis Hload : loadSpec g load.

Lemma gatherInput_grows n es : ∀ inputData s inputData' s' d,
  gatherInput load n es inputData s = Returned inputData' s' →
  enumerates d s →
  ∃ l, grows g d l s s'
       ∧ (∀ e, e ∈ es → edgeTarget e = n → edgeSource e ∈ l ++ d)
       ∧ (∀ x, x ∈ l →
            ∃ e, e ∈ es ∧ edgeTarget e = n ∧ beforeEq l (edgeSource e) x).
Proof.
  induction es as [|edge es IH]; simpl; intros inputData s inputData' s' d.
  - intros [= <- <-] Hd. exists []. split; [by apply grows_refl|].
    split; [by intros e ?%elem_of_nil|by intros x ?%elem_of_nil].
  - destruct (decide (edgeTarget edge = n)) as [Ht|Ht].
    + destruct (load (edgeSource edge) s) as [entry s1| |] eqn:Hl; try done.
      intros Hg Hd.
      destruct (Hload _ _ _ _ _ Hl Hd) as (l1 & Hg1 & Hin1 & Hhd1).
      assert (∃ inputData1 h,
        gatherInput load n es inputData1 (setHeap h s1) = Returned inputData' s')
        as (inputData1 & h & Hrest).
      { destruct (entryOutput entry ≫= _) as [handleInput|].
        - destruct (inputData !! targetHandle edge) as [arr|]; eauto.
          exists (<[targetHandle edge:=handleInput]> inputData), (heap s1).
          by destruct s1.
        - exists inputData, (heap s1). by destruct s1. }
      destruct (IH _ _ _ _ (l1 ++ d) Hrest) as (l2 & Hg2 & Hin2 & Hhd2).
      { apply Hg1. }
      exists (l2 ++ l1). split.
      { eapply grows_trans; [done|].
        destruct Hg2 as (He2 & Hu2 & new2 & Hi2 & Hn2 & Hs2).
        split; [done|]. split; [done|]. by exists new2. }
      split.
      * intros e [->|He]%elem_of_cons Hte; rewrite <- (assoc_L (++)).
        -- apply elem_of_app. by right.
        -- by apply Hin2.
      * intros x [Hx|Hx]%elem_of_app.
        -- destruct (Hhd2 x Hx) as (e & He & Hte & Hb).
           exists e. split; [by apply elem_of_cons; right|].
           split; [done|]. by apply beforeEq_app_l.
        -- exists edge. split; [by apply elem_of_cons; left|].
           split; [done|]. apply beforeEq_app_r.
           destruct Hhd1 as [->|[l' ->]]; [by apply elem_of_nil in Hx|].
           by apply beforeEq_head.
    + intros Hg Hd.
      destruct (IH _ _ _ _ d Hg Hd) as (l & Hgl & Hin & Hhd).
      exists l. split; [done|]. split.
      * intros e [->|He]%elem_of_cons Hte; [done|by apply Hin].
      * intros x Hx. destruct (Hhd x Hx) as (e & He & Hte & Hb).
        exists e. split; [by apply elem_of_cons; right|done].
Qed.

End gather.

(** No call of [loadCache] that returns has computed a node twice: the
    loop of a node never stores that node. *)
Lemma loadCache_grows g fuel : loadSpec g (loadCache g fuel).
Proof.
  induction fuel as [|fuel IH]; intros n s entry s' d; simpl; [done|].
  destruct (pipeCache s !! n) as [e0|] eqn:Hc.
  - intros [= <- <-] Hd. exists []. split; [by apply grows_refl|].
    split; [|by left]. apply Hd. by rewrite Hc.
  - destruct (nodes g !! n) as [node|] eqn:Hn; [|done].
    destruct (gatherInput _ _ _ _ _) as [inputData s1| |] eqn:Hg; try done.
    pose proof (calcCache_pipeCache n (target (handles (data node)))
      (source (handles (data node))) (pipeValue (data node)) inputData s1) as Hpc.
    pose proof (calcCache_invoked n (target (handles (data node)))
      (source (handles (data node))) (pipeValue (data node)) inputData s1) as Hiv.
    destruct (calcCache _ _ _ _ _ _) as [cacheEntry s2]. simpl in Hpc, Hiv.
    intros [= <- <-] Hd.
    destruct (gatherInput_grows g _ IH n _ _ _ _ _ d Hg Hd)
      as (l & (He & Hu & new & Hi & Hnd & Hsub) & Hin & Hhd).
    assert (n ∉ l ++ d) as Hfresh.
    { intros [Hx|Hx]%elem_of_app.
      - destruct (Hhd n Hx) as (e & Hee & Hte & Hb).
        destruct He as [Hnd' _].
        by eapply upstreamFirst_not_before.
      - apply Hd in Hx. rewrite Hc in Hx. by destruct Hx. }
    exists (n :: l). split; [|split; [by apply elem_of_cons; left|eauto]].
    split; [|split].
    + destruct He as [Hnd' Hdom]. split; [by constructor|].
      intros x. simpl. rewrite Hpc, elem_of_cons, Hdom.
      destruct (decide (x = n)) as [->|Hne].
      * rewrite lookup_insert_eq. split; [eauto|by left].
      * rewrite lookup_insert_ne by done. split; [by intros [?|?]|by right].
    + simpl. split; [by rewrite Hn|]. split; [|done].
      intros e Hee Hte. by apply Hin.
    + unfold callsWithin. simpl.
      destruct Hiv as [Hiv|Hiv]; rewrite Hiv, Hi.
      * exists new. split; [done|]. split; [done|].
        intros x Hx. apply elem_of_cons. right. by apply Hsub.
      * exists (new ++ [(n, inputData)]). rewrite (assoc_L (++)).
        split; [done|]. rewrite fmap_app. simpl. split.
        -- apply NoDup_app. split; [done|]. split; [|apply NoDup_singleton].
           intros x Hx ->%list_elem_of_singleton.
           apply Hfresh, elem_of_app. left. by apply Hsub.
        -- intros x [Hx|Hx]%elem_of_app; apply elem_of_cons.
           ++ right. by apply Hsub.
           ++ left. by apply list_elem_of_singleton in Hx.
Qed.

Lemma loadAll_grows g fuel ids : ∀ s s' d,
  loadAll g fuel ids s = Returned tt s' → enumerates d s →
  ∃ l, grows g d l s s' ∧ ∀ x, x ∈ ids → x ∈ l ++ d.
Proof.
  induction ids as [|n ids IH]; simpl; intros s s' d.
  - intros [= <-] Hd. exists []. split; [by apply grows_refl|].
    by intros x ?%elem_of_nil.
  - destruct (loadCache g fuel n s) as [entry s1| |] eqn:Hl; try done.
    intros Hrest Hd.
    destruct (loadCache_grows g fuel _ _ _ _ _ Hl Hd) as (l1 & Hg1 & Hin1 & _).
    destruct (IH _ _ (l1 ++ d) Hrest) as (l2 & Hg2 & Hin2); [apply Hg1|].
    exists (l2 ++ l1). split; [by eapply grows_trans|].
    intros x [->|Hx]%elem_of_cons; rewrite <- (assoc_L (++)).
    + apply elem_of_app. by right.
    + by apply Hin2.
Qed.

(** The keys of any memo table, as a list without repetition. *)
Lemma enumerates_keys s : enumerates (map_to_list (pipeCache s)).*1 s.
Proof.
  split; [apply NoDup_fst_map_to_list|].
  intros x. rewrite list_elem_of_fmap. split.
  - intros ([y e] & -> & Hy%elem_of_map_to_list). by exists e.
  - intros [e He]. exists (x, e). split; [done|].
    by apply elem_of_map_to_list.
Qed.

(** Only nodes of the graph get an entry. *)
Lemma loadCache_cacheOfNodes g fuel n s entry s' :
  loadCache g fuel n s = Returned entry s' →
  cacheOfNodes g s → cacheOfNodes g s'.
Proof.
  intros Hl Hs x Hx.
  destruct (loadCache_grows g fuel _ _ _ _ _ Hl (enumerates_keys s))
    as (l & ((_ & Hdom) & Hu & _) & _).
  apply Hdom in Hx. apply elem_of_app in Hx as [Hx|Hx].
  - by eapply upstreamFirst_nodes.
  - apply Hs. by apply (enumerates_keys s).
Qed.

(** ** The recursion ends on acyclic graphs *)

Section returns.

Variable g : Graph.
Variable rank : string → nat.
Hypothesis Hacyclic : acyclic g rank.

(** With the fuel above the rank of the node, the model never stops for
    lack of fuel. *)
Lemma gatherInput_fuel load n es :
  (∀ e s, e ∈ es → edgeTarget e = n → load (edgeSource e) s ≠ OutOfFuel) →
  ∀ inputData s, gatherInput load n es inputData s ≠ OutOfFuel.
Proof.
  induction es as [|edge es IH]; simpl; intros Hl inputData s; [done|].
  assert (∀ e s, e ∈ es → edgeTarget e = n → load (edgeSource e) s ≠ OutOfFuel)
    as Hl' by (intros; apply Hl; [by apply elem_of_cons; right|done]).
  destruct (decide (edgeTarget edge = n)) as [Ht|Ht]; [|by apply IH].
  destruct (load (edgeSource edge) s) as [entry s1| |] eqn:Hld; [|done|].
  - destruct (entryOutput entry ≫= _); [|by apply IH].
    destruct (inputData !! targetHandle edge); by apply IH.
  - exfalso. eapply Hl; [by apply elem_of_cons; left|done|done].
Qed.

Lemma loadCache_fuel fuel : ∀ n s,
  rank n < fuel → loadCache g fuel n s ≠ OutOfFuel.
Proof.
  induction fuel as [|fuel IH]; intros n s Hr; [lia|]. simpl.
  destruct (pipeCache s !! n); [done|].
  destruct (nodes g !! n) as [node|]; [|done].
  destruct (gatherInput _ _ _ _ _) as [inputData s1| |] eqn:Hg; [|done|].
  - by destruct (calcCache _ _ _ _ _ _).
  - exfalso. revert Hg. apply gatherInput_fuel.
    intros e s0 He Ht. apply IH. specialize (Hacyclic e He).
    rewrite Ht in Hacyclic. lia.
Qed.

End returns.

(** An exception can only come from a node that is missing. *)
Lemma gatherInput_not_raised load n es :
  (∀ e s x s', e ∈ es → edgeTarget e = n → load (edgeSource e) s ≠ Raised x s') →
  ∀ inputData s x s', gatherInput load n es inputData s ≠ Raised x s'.
Proof.
  induction es as [|edge es IH]; simpl; intros Hl inputData s x s'; [done|].
  assert (∀ e s x s', e ∈ es → edgeTarget e = n →
            load (edgeSource e) s ≠ Raised x s')
    as Hl' by (intros; apply Hl; [by apply elem_of_cons; right|done]).
  destruct (decide (edgeTarget edge = n)) as [Ht|Ht]; [|by apply IH].
  destruct (load (edgeSource edge) s) as [entry s1|x1 s1|] eqn:Hld; [| |done].
  - destruct (entryOutput entry ≫= _); [|by apply IH].
    destruct (inputData !! targetHandle edge); by apply IH.
  - exfalso. eapply Hl; [by apply elem_of_cons; left|done|done].
Qed.

Lemma loadCache_not_raised g fuel :
  sourcesExist g → ∀ n s x s',
  is_Some (nodes g !! n) → loadCache g fuel n s ≠ Raised x s'.
Proof.
  intros Hsrc. induction fuel as [|fuel IH]; intros n s x s' [node Hn]; [done|].
  simpl. destruct (pipeCache s !! n); [done|]. rewrite Hn.
  destruct (gatherInput _ _ _ _ _) as [inputData s1|x1 s1|] eqn:Hg; [| |done].
  - by destruct (calcCache _ _ _ _ _ _).
  - exfalso. revert Hg. apply gatherInput_not_raised.
    intros e s0 x0 s0' He Ht. apply IH. by apply Hsrc.
Qed.

(** [loadCache] returns on a graph without cycles whose edges start at
    nodes. *)
Lemma loadCache_returns g rank fuel n s :
  acyclic g rank → sourcesExist g →
  is_Some (nodes g !! n) → rank n < fuel →
  ∃ entry s', loadCache g fuel n s = Returned entry s'.
Proof.
  intros Hac Hsrc Hn Hr.
  destruct (loadCache g fuel n s) as [entry s'|x s'|] eqn:Hl; [eauto| |].
  - by apply loadCache_not_raised in Hl.
  - by eapply loadCache_fuel in Hl.
Qed.

(** So does the loop over the edges of a node, one level below. *)
Lemma gatherInput_returns g rank fuel n s :
  acyclic g rank → sourcesExist g → (rank n ≤ fuel)%nat →
  ∃ inputData s1,
    gatherInput (loadCache g fuel) n (edges g) ∅ s = Returned inputData s1.
Proof.
  intros Hac Hsrc Hr.
  destruct (gatherInput _ _ _ _ _) as [inputData s1|x s1|] eqn:Hg; [eauto| |].
  - exfalso. revert Hg. apply gatherInput_not_raised.
    intros e s0 x0 s0' He Ht. apply loadCache_not_raised; [done|]. by apply Hsrc.
  - exfalso. revert Hg. apply gatherInput_fuel.
    intros e s0 He Ht. apply (loadCache_fuel g rank Hac).
    specialize (Hac e He). rewrite Ht in Hac. lia.
Qed.

Lemma loadAll_returns g rank fuel ids :
  acyclic g rank → sourcesExist g →
  (∀ n, n ∈ ids → is_Some (nodes g !! n) ∧ rank n < fuel) →
  ∀ s, ∃ s', loadAll g fuel ids s = Returned tt s'.
Proof.
  intros Hac Hsrc. induction ids as [|n ids IH]; simpl; intros Hids s; [eauto|].
  destruct (Hids n) as [Hn Hr]; [by apply elem_of_cons; left|].
  destruct (loadCache_returns g rank fuel n s Hac Hsrc Hn Hr) as (e & s1 & ->).
  apply IH. intros m Hm. apply Hids. by apply elem_of_cons; right.
Qed.

Lemma forInOrder_spec (ns : gmap string Node) keys x :
  forInOrder ns keys → x ∈ keys ↔ is_Some (ns !! x).
Proof.
  intros [_ Heq]. rewrite <- elem_of_dom, <- Heq. symmetry.
  apply elem_of_list_to_set.
Qed.

Lemma forInOrder_forIn (ns : gmap string Node) : forInOrder ns (forIn ns).
Proof.
  split; [apply NoDup_fst_map_to_list|].
  apply set_eq. intros x. rewrite elem_of_list_to_set, elem_of_dom.
  unfold forIn. rewrite list_elem_of_fmap. split.
  - intros ([y e] & -> & Hy%elem_of_map_to_list). by exists e.
  - intros [e He]. exists (x, e). split; [done|].
    by apply elem_of_map_to_list.
Qed.

(** The recalculation completes on such a graph. *)
Lemma recalculate_returns g rank keys fuel s :
  acyclic g rank → sourcesExist g → forInOrder (nodes g) keys →
  (∀ n, is_Some (nodes g !! n) → rank n < fuel) →
  ∃ s', recalculate g keys fuel s = Returned tt s'.
Proof.
  intros Hac Hsrc Hk Hr. unfold recalculate.
  destruct (pipeCacheValid s); [eauto|].
  destruct (loadAll_returns g rank fuel keys Hac Hsrc) with
    (s := setCache ∅ s) as [s1 ->]; [|eauto].
  intros n Hn. apply (forInOrder_spec _ _ _ Hk) in Hn. auto.
Qed.

(** ** The loop over the edges *)

(** The loop of a node does not store that node, and calls every mapper at
    most once and never the node's own. *)
Lemma gatherInput_own_node g fuel n inputData0 s inputData s1 :
  pipeCache s !! n = None →
  gatherInput (loadCache g fuel) n (edges g) inputData0 s = Returned inputData s1 →
  pipeCache s1 !! n = None
  ∧ ∃ new, invoked s1 = invoked s ++ new ∧ NoDup new.*1 ∧ n ∉ new.*1.
Proof.
  intros Hc Hg.
  destruct (gatherInput_grows g _ (loadCache_grows g fuel) n _ _ _ _ _ _ Hg
              (enumerates_keys s))
    as (l & ((Hnd & Hdom) & Hu & new & Hi & Hnew & Hsub) & Hin & Hhd).
  assert (n ∉ l) as Hfresh.
  { intros Hx. destruct (Hhd n Hx) as (e & Hee & Hte & Hb).
    by eapply upstreamFirst_not_before. }
  split.
  - destruct (pipeCache s1 !! n) as [e|] eqn:Hc1; [|done]. exfalso.
    assert (n ∈ l ++ (map_to_list (pipeCache s)).*1) as Hx
      by (apply Hdom; by rewrite Hc1).
    apply elem_of_app in Hx as [Hx|Hx]; [done|].
    apply (enumerates_keys s) in Hx. rewrite Hc in Hx. by destruct Hx.
  - exists new. split; [done|]. split; [done|]. intros Hx. by apply Hfresh, Hsub.
Qed.

(** A port that no edge of the node targets gets no entry. *)
Lemma gatherInput_untargeted load n p es : ∀ inputData s inputData' s',
  (∀ e, e ∈ es → edgeTarget e = n → targetHandle e ≠ p) →
  inputData !! p = None →
  gatherInput load n es inputData s = Returned inputData' s' →
  inputData' !! p = None.
Proof.
  induction es as [|edge es IH]; simpl; intros inputData s inputData' s' Hp Hi.
  - by intros [= <- <-].
  - assert (∀ e, e ∈ es → edgeTarget e = n → targetHandle e ≠ p) as Hp'
      by (intros; apply Hp; [by apply elem_of_cons; right|done]).
    destruct (decide (edgeTarget edge = n)) as [Ht|Ht]; [|by apply IH].
    destruct (load (edgeSource edge) s) as [entry s1| |]; try done.
    destruct (entryOutput entry ≫= _); [|by apply IH].
    destruct (inputData !! targetHandle edge) eqn:Hth; [by apply IH|].
    apply IH; [done|]. rewrite lookup_insert_ne; [done|].
    apply Hp; [by apply elem_of_cons; left|done].
Qed.

Lemma missingInput_true h inputData handle :
  missingInput h inputData handle = true ↔
  isOptional handle = false
  ∧ (inputData !! id handle = None
     ∨ ∃ arr, inputData !! id handle = Some arr ∧ readArray h arr = []).
Proof.
  unfold missingInput. rewrite andb_true_iff, negb_true_iff.
  destruct (inputData !! id handle) as [arr|].
  - rewrite Nat.eqb_eq, length_zero_iff_nil. split; intros [H1 H2].
    + split; [done|]. right. by exists arr.
    + split; [done|]. by destruct H2 as [?|(a & [= <-] & ?)].
  - split; intros [H1 _]; auto.
Qed.

Lemma hasDuplicate_true newEdge es :
  hasDuplicate newEdge es = true ↔
  ∃ edge, edge ∈ es
    ∧ edgeSource edge = edgeSource newEdge
    ∧ edgeTarget edge = edgeTarget newEdge
    ∧ sourceHandle edge = sourceHandle newEdge
    ∧ targetHandle edge = targetHandle newEdge.
Proof.
  induction es as [|edge es IH]; simpl.
  - split; [done|]. by intros (e & ?%elem_of_nil & _).
  - destruct (_ && _ && _ && _) eqn:Hb.
    + split; [|done]. intros _. exists edge.
      rewrite !andb_true_iff, !bool_decide_eq_true in Hb.
      split; [by apply elem_of_cons; left|]. tauto.
    + rewrite IH. split.
      * intros (e & He & Hrest). exists e. split; [by apply elem_of_cons; right|done].
      * intros (e & [->|He]%elem_of_cons & H1 & H2 & H3 & H4); [|eauto 6].
        exfalso. rewrite <- not_true_iff_false in Hb. apply Hb.
        by rewrite !andb_true_iff, !bool_decide_eq_true.
Qed.

(** A second call returns the stored entry and changes nothing. *)
Lemma loadCache_twice g fuel n s entry s' :
  loadCache g fuel n s = Returned entry s' →
  ∀ fuel', loadCache g (S fuel') n s' = Returned entry s'.
Proof. intros Hl%loadCache_stored fuel'. by apply loadCache_hit. Qed.

(** ** The claims *)

(** C10. [mapMessage] keeps the sender and the kind of the message; on an
    [Ok] message the value becomes the image of the old value under the
    function, and a [BadConfig] or [Err] message comes back as it was (no
    value, the same error if any). *)
Theorem mapMessage_structure {T U} (message : Pipe.PipeMessage T) (map : T → U) :
  Pipe.fromNode (Pipe.mapMessage message map) = Pipe.fromNode message
  ∧ Pipe.kind (Pipe.mapMessage message map) = Pipe.kind message
  ∧ Pipe.value (Pipe.mapMessage message map) = map <$> Pipe.value message
  ∧ Pipe.error (Pipe.mapMessage message map) = Pipe.error message.
Proof. by destruct message. Qed.

(** C9. [onConnect] drops an edge from a node to itself and an edge whose
    source node, source port, target node and target port are those of an
    edge already present: the edge list and the validity flag are both
    left as they were. *)
Theorem onConnect_rejects addEdge newEdge es valid :
  (edgeSource newEdge = edgeTarget newEdge
   ∨ ∃ edge, edge ∈ es
       ∧ edgeSource edge = edgeSource newEdge
       ∧ sourceHandle edge = sourceHandle newEdge
       ∧ edgeTarget edge = edgeTarget newEdge
       ∧ targetHandle edge = targetHandle newEdge) →
  onConnect addEdge newEdge (es, valid) = (es, valid).
Proof.
  intros H. unfold onConnect. case_bool_decide as Hself; [done|].
  destruct H as [H|(edge & He & H1 & H2 & H3 & H4)]; [done|].
  simpl. replace (hasDuplicate newEdge es) with true; [done|].
  symmetry. apply hasDuplicate_true. by exists edge.
Qed.

(** C2. A [Ready] node with a declared input port that is not optional and
    whose entry in the input bundle is absent or empty (as when no edge
    targets the port) gets the entry [Errored "Missing input"]; its mapper
    is not called. *)
Theorem missing_required_input g fuel n s node mapper inputData s1 handle :
  pipeCache s !! n = None →
  nodes g !! n = Some node →
  pipeValue (data node) = OkPipe mapper →
  gatherInput (loadCache g fuel) n (edges g) ∅ s = Returned inputData s1 →
  handle ∈ target (handles (data node)) →
  isOptional handle = false →
  ((∀ e, e ∈ edges g → edgeTarget e = n → targetHandle e ≠ id handle)
   ∨ inputData !! id handle = None
   ∨ ∃ arr, inputData !! id handle = Some arr ∧ readArray (heap s1) arr = []) →
  ∃ s', loadCache g (S fuel) n s
          = Returned (ErrorCacheEntry inputData "Missing input") s'
        ∧ pipeCache s' !! n = Some (ErrorCacheEntry inputData "Missing input")
        ∧ ∃ new, invoked s' = invoked s ++ new ∧ n ∉ new.*1.
Proof.
  intros Hc Hn Hpv Hg Hh Hopt Hunmet.
  assert (existsb (missingInput (heap s1) inputData)
            (target (handles (data node))) = true) as Hex.
  { apply existsb_exists. exists handle. split; [by apply list_elem_of_In|].
    apply missingInput_true. split; [done|].
    destruct Hunmet as [Hno|[?|?]]; auto. left.
    exact (gatherInput_untargeted _ _ _ _ _ _ _ _ Hno (lookup_empty _) Hg). }
  rewrite (loadCache_miss _ _ _ _ _ _ _ Hc Hn Hg).
  unfold calcCache. rewrite Hpv, Hex. simpl.
  eexists. split; [done|]. simpl. split; [apply lookup_insert_eq|].
  destruct (gatherInput_own_node _ _ _ _ _ _ _ Hc Hg) as (_ & new & Hi & _ & Hnew).
  by exists new.
Qed.

(** C3. A [Ready] node whose required inputs are all present and non-empty,
    and whose mapper throws or returns a bundle without an entry for one
    of the declared output ports, gets the entry
    [Errored "Error in node implementation"], whatever was thrown; the
    fault itself is written to the console. *)
Theorem implementation_fault g fuel n s node mapper inputData s1 :
  pipeCache s !! n = None →
  nodes g !! n = Some node →
  pipeValue (data node) = OkPipe mapper →
  gatherInput (loadCache g fuel) n (edges g) ∅ s = Returned inputData s1 →
  (∀ handle, handle ∈ target (handles (data node)) →
     isOptional handle = false →
     ∃ arr, inputData !! id handle = Some arr ∧ readArray (heap s1) arr ≠ []) →
  ((∃ e h', mapper inputData (heap s1) = Throws e h')
   ∨ ∃ outputData h' handle,
       mapper inputData (heap s1) = Returns outputData h'
       ∧ handle ∈ source (handles (data node))
       ∧ outputData !! id handle = None) →
  ∃ s' fault,
    loadCache g (S fuel) n s
      = Returned (ErrorCacheEntry inputData "Error in node implementation") s'
    ∧ console s' = console s1 ++ [("ERR in node implementation: ", fault)]
    ∧ match mapper inputData (heap s1) with
      | Throws e _ => fault = e
      | Returns outputData _ =>
        ∃ handle, handle ∈ source (handles (data node))
                  ∧ outputData !! id handle = None
                  ∧ fault = missingOutputError n handle
      end.
Proof.
  intros Hc Hn Hpv Hg Hsat Hfault.
  assert (existsb (missingInput (heap s1) inputData)
            (target (handles (data node))) = false) as Hex.
  { apply not_true_iff_false. intros (h & Hin & Hm)%existsb_exists.
    apply missingInput_true in Hm as [Hopt Hm].
    destruct (Hsat h) as (arr & Ha & Hne); [by apply list_elem_of_In|done|].
    destruct Hm as [Hm|(arr' & Hm & Hnil)]; congruence. }
  rewrite (loadCache_miss _ _ _ _ _ _ _ Hc Hn Hg).
  unfold calcCache. rewrite Hpv, Hex. simpl.
  destruct Hfault as [(e & h' & Hm)|(outputData & h' & handle & Hm & Hin & Hout)];
    rewrite Hm.
  - simpl. by eexists _, e.
  - destruct (List.find _ _) as [h0|] eqn:Hfind.
    + apply find_some in Hfind as [Hin0 Hmiss].
      simpl. eexists _, _. split; [done|]. split; [done|].
      exists h0. split; [by apply list_elem_of_In|].
      split; [|done]. by apply bool_decide_eq_true in Hmiss.
    + exfalso. apply list_elem_of_In in Hin.
      eapply find_none in Hfind; [|done].
      unfold missingOutput in Hfind. by rewrite bool_decide_eq_false in Hfind.
Qed.

(** Entries are never replaced by a call that returns. *)
Lemma gatherInput_keeps_entries load n es :
  (∀ m s entry s', load m s = Returned entry s' →
     ∀ x e, pipeCache s !! x = Some e → pipeCache s' !! x = Some e) →
  ∀ inputData s inputData' s',
    gatherInput load n es inputData s = Returned inputData' s' →
    ∀ x e, pipeCache s !! x = Some e → pipeCache s' !! x = Some e.
Proof.
  intros Hload. induction es as [|edge es IH]; simpl;
    intros inputData s inputData' s'.
  - by intros [= <- <-].
  - destruct (decide (edgeTarget edge = n)); [|by apply IH].
    destruct (load (edgeSource edge) s) as [entry s1| |] eqn:Hl; try done.
    intros Hg x stored Hx. pose proof (Hload _ _ _ _ Hl x stored Hx) as Hx1.
    destruct (entryOutput entry ≫= _); [|by eapply IH].
    destruct (inputData !! targetHandle edge); by eapply IH.
Qed.

Lemma loadCache_keeps_entries g fuel : ∀ n s entry s',
  loadCache g fuel n s = Returned entry s' →
  ∀ x e, pipeCache s !! x = Some e → pipeCache s' !! x = Some e.
Proof.
  induction fuel as [|fuel IH]; intros n s entry s' Hl; [done|].
  pose proof Hl as Hl'. simpl in Hl.
  destruct (pipeCache s !! n) as [e0|] eqn:Hc; [by injection Hl as _ <-|].
  destruct (nodes g !! n) as [node|] eqn:Hn; [|done].
  destruct (gatherInput _ _ _ _ _) as [inputData s1| |] eqn:Hg; try done.
  destruct (gatherInput_own_node _ _ _ _ _ _ _ Hc Hg) as [Hc1 _].
  pose proof (calcCache_pipeCache n (target (handles (data node)))
    (source (handles (data node))) (pipeValue (data node)) inputData s1) as Hpc.
  destruct (calcCache _ _ _ _ _ _) as [cacheEntry s2]. simpl in Hpc.
  injection Hl as <- <-. intros x stored Hx. simpl. rewrite Hpc.
  pose proof (gatherInput_keeps_entries _ _ _ (IH) _ _ _ _ Hg x stored Hx) as Hx1.
  rewrite lookup_insert_ne; [done|]. intros <-. congruence.
Qed.

(** A port is absent from the gathered bundle exactly when it was absent
    before the loop and no edge into it found an array: the entry of the
    source, as the table has it after the loop, is an error or an output
    without the source port of the edge. *)
Lemma gatherInput_absent g fuel n es : ∀ inputData s inputData' s',
  gatherInput (loadCache g fuel) n es inputData s = Returned inputData' s' →
  ∀ p, inputData' !! p = None
       ↔ inputData !! p = None
         ∧ ∀ e, e ∈ es → edgeTarget e = n → targetHandle e = p →
                edgeArray s' e = None.
Proof.
  induction es as [|edge es IH]; simpl; intros inputData s inputData' s'.
  - intros [= <- <-] p. split; [|by intros [? _]].
    intros Hp. split; [done|]. by intros e ?%elem_of_nil.
  - destruct (decide (edgeTarget edge = n)) as [Ht|Ht].
    2:{ intros Hg p. rewrite (IH _ _ _ _ Hg p). split; intros [Hp Hes].
        - split; [done|]. intros e [->|He]%elem_of_cons; [done|by apply Hes].
        - split; [done|]. intros e He. apply Hes. by apply elem_of_cons; right. }
    destruct (loadCache g fuel (edgeSource edge) s) as [entry s1| |] eqn:Hl;
      [|done|done].
    pose proof (loadCache_stored _ _ _ _ _ _ Hl) as Hst.
    assert (∀ i sa, pipeCache sa = pipeCache s1 →
              gatherInput (loadCache g fuel) n es i sa = Returned inputData' s' →
              edgeArray s' edge
              = entryOutput entry ≫= (λ o, o !! sourceHandle edge)) as Hedge.
    { intros i sa Hsa Hg. unfold edgeArray.
      erewrite (gatherInput_keeps_entries _ _ _ (loadCache_keeps_entries g fuel)
                  _ _ _ _ Hg); [done|]. by rewrite Hsa. }
    destruct (entryOutput entry ≫= _) as [handleInput|] eqn:Hout.
    + destruct (inputData !! targetHandle edge) as [arr|] eqn:Hth.
      * intros Hg p. rewrite (IH _ _ _ _ Hg p). split; intros [Hp Hes].
        -- split; [done|].
           intros e [->|He]%elem_of_cons; [intros _ <-; congruence|by apply Hes].
        -- split; [done|]. intros e He. apply Hes. by apply elem_of_cons; right.
      * intros Hg p. rewrite (IH _ _ _ _ Hg p).
        pose proof (Hedge _ _ eq_refl Hg) as He0.
        destruct (decide (p = targetHandle edge)) as [->|Hne].
        -- rewrite lookup_insert_eq. split; [by intros [? _]|].
           intros [_ Hes]. specialize (Hes edge (list_elem_of_here _ _) Ht eq_refl).
           congruence.
        -- rewrite lookup_insert_ne by done. split; intros [Hp Hes].
           ++ split; [done|].
              intros e [->|He]%elem_of_cons; [by intros _ <-|by apply Hes].
           ++ split; [done|]. intros e He. apply Hes. by apply elem_of_cons; right.
    + intros Hg p. rewrite (IH _ _ _ _ Hg p).
      pose proof (Hedge _ _ eq_refl Hg) as He0.
      split; intros [Hp Hes].
      * split; [done|].
        intros e [->|He]%elem_of_cons; [done|by apply Hes].
      * split; [done|]. intros e He. apply Hes. by apply elem_of_cons; right.
Qed.

(** C5, as the code has it.  A [Ready] node whose unmet input ports (no
    entry, or an empty one) are all optional has its mapper called, once
    more, on the bundle as the loop built it, and when the mapper returns a
    bundle with all the declared output ports the entry is [Computed].  A
    port is absent from that bundle exactly when no edge into it starts at
    an entry that is an output holding the source port of the edge; an
    optional port wired to an upstream output that is empty is unmet and
    yet present, with no values. *)
Theorem optional_ports_as_gathered g fuel n s node mapper inputData s1 :
  pipeCache s !! n = None →
  nodes g !! n = Some node →
  pipeValue (data node) = OkPipe mapper →
  gatherInput (loadCache g fuel) n (edges g) ∅ s = Returned inputData s1 →
  (∀ handle, handle ∈ target (handles (data node)) →
     (inputData !! id handle = None
      ∨ ∃ arr, inputData !! id handle = Some arr ∧ readArray (heap s1) arr = []) →
     isOptional handle = true) →
  ∃ entry s',
    loadCache g (S fuel) n s = Returned entry s'
    ∧ invoked s' = invoked s1 ++ [(n, inputData)]
    ∧ (∀ p, inputData !! p = None
            ↔ ∀ e, e ∈ edges g → edgeTarget e = n → targetHandle e = p →
                   edgeArray s1 e = None)
    ∧ (∀ outputData h',
         mapper inputData (heap s1) = Returns outputData h' →
         (∀ handle, handle ∈ source (handles (data node)) →
            is_Some (outputData !! id handle)) →
         entry = OutputCacheEntry inputData outputData).
Proof.
  intros Hc Hn Hpv Hg Hopt.
  assert (existsb (missingInput (heap s1) inputData)
            (target (handles (data node))) = false) as Hex.
  { apply not_true_iff_false. intros (h & Hin & Hm)%existsb_exists.
    apply missingInput_true in Hm as [Hno Hm].
    rewrite (Hopt h) in Hno; [done|by apply list_elem_of_In|done]. }
  rewrite (loadCache_miss _ _ _ _ _ _ _ Hc Hn Hg).
  unfold calcCache. rewrite Hpv, Hex. simpl.
  eexists _, _. split; [done|]. split; [|split].
  - simpl. destruct (mapper _ _) as [o h'|e h']; [|done].
    by destruct (List.find _ _).
  - intros p. rewrite (gatherInput_absent _ _ _ _ _ _ _ _ Hg p).
    rewrite lookup_empty. split; [by intros [_ ?]|done].
  - intros outputData h' Hm Hall. rewrite Hm.
    destruct (List.find _ _) as [h0|] eqn:Hfind; [|done]. exfalso.
    apply find_some in Hfind as [Hin0 Hmiss].
    apply bool_decide_eq_true in Hmiss.
    destruct (Hall h0) as [arr Harr]; [by apply list_elem_of_In|congruence].
Qed.

(** What the recalculation block leaves behind. *)
Lemma recalculate_grows g keys fuel s s' :
  forInOrder (nodes g) keys →
  pipeCacheValid s = false →
  recalculate g keys fuel s = Returned tt s' →
  ∃ s1 l, s' = setValid true s1
          ∧ grows g [] l (setCache ∅ s) s1
          ∧ ∀ x, is_Some (nodes g !! x) → x ∈ l.
Proof.
  unfold recalculate. intros Hk -> Hr.
  destruct (loadAll _ _ _ _) as [[] s1| |] eqn:Hl; try done.
  injection Hr as <-.
  destruct (loadAll_grows _ _ _ _ _ [] Hl) as (l & Hg & Hin).
  { split; [constructor|]. intros x. simpl. rewrite lookup_empty, elem_of_nil.
    split; [done|]. by intros [? ?]. }
  exists s1, l. split; [done|]. split; [done|].
  intros x Hx. apply (forInOrder_spec _ _ _ Hk) in Hx.
  specialize (Hin x Hx). by rewrite app_nil_r in Hin.
Qed.

(** C1. After the recalculation of an invalidated table, every mapper has
    been called at most once; until the next invalidation a render
    recalculates nothing, and resolving a node returns its stored entry
    and leaves the whole state, arrays included, as it was: a second call
    returns the same entry, and no mapper runs again. *)
Theorem memoization g keys fuel s s' :
  forInOrder (nodes g) keys →
  pipeCacheValid s = false →
  recalculate g keys fuel s = Returned tt s' →
  (∃ new, invoked s' = invoked s ++ new ∧ NoDup new.*1)
  ∧ (∀ keys' fuel', recalculate g keys' fuel' s' = Returned tt s')
  ∧ ∀ n, is_Some (nodes g !! n) →
      ∃ entry, ∀ fuel1 fuel2,
        loadCache g (S fuel1) n s' = Returned entry s'
        ∧ loadCache g (S fuel2) n s' = Returned entry s'.
Proof.
  intros Hk Hv Hr.
  destruct (recalculate_grows _ _ _ _ _ Hk Hv Hr)
    as (s1 & l & -> & ((_ & Hdom) & _ & new & Hi & Hnew & _) & Hin).
  split; [by exists new|]. split; [done|].
  intros n Hn. destruct (proj1 (Hdom n)) as [entry He].
  { apply elem_of_app. left. by apply Hin. }
  exists entry. intros fuel1 fuel2. split; by apply loadCache_hit.
Qed.

(** C6. When the recalculation has set the validity flag, the memo table
    has an entry for a key exactly when the key is a node of the graph. *)
Theorem memo_table_complete g keys fuel s s' :
  forInOrder (nodes g) keys →
  pipeCacheValid s = false →
  recalculate g keys fuel s = Returned tt s' →
  pipeCacheValid s' = true
  ∧ ∀ n, is_Some (pipeCache s' !! n) ↔ is_Some (nodes g !! n).
Proof.
  intros Hk Hv Hr.
  destruct (recalculate_grows _ _ _ _ _ Hk Hv Hr)
    as (s1 & l & -> & ((_ & Hdom) & Hu & _) & Hin).
  split; [done|]. intros n. simpl. rewrite <- Hdom, app_nil_r. split.
  - intros Hx. by eapply upstreamFirst_nodes.
  - apply Hin.
Qed.

(** ** Edges from a missing node *)

Lemma loadCache_keeps_missing g fuel n s entry s' x :
  loadCache g fuel n s = Returned entry s' →
  nodes g !! x = None → pipeCache s !! x = None → pipeCache s' !! x = None.
Proof.
  intros Hl Hn Hc.
  destruct (loadCache_grows g fuel _ _ _ _ _ Hl (enumerates_keys s))
    as (l & ((_ & Hdom) & Hu & _) & _).
  destruct (pipeCache s' !! x) as [e|] eqn:Hc'; [|done]. exfalso.
  assert (x ∈ l ++ (map_to_list (pipeCache s)).*1) as Hx
    by (apply Hdom; by rewrite Hc').
  apply elem_of_app in Hx as [Hx|Hx].
  - eapply upstreamFirst_nodes in Hx; [|done]. rewrite Hn in Hx. by destruct Hx.
  - apply (enumerates_keys s) in Hx. rewrite Hc in Hx. by destruct Hx.
Qed.

Lemma loadCache_missing_not_returned g fuel x s entry s' :
  nodes g !! x = None → pipeCache s !! x = None →
  loadCache g fuel x s ≠ Returned entry s'.
Proof. intros Hn Hc. destruct fuel; simpl; [done|]. by rewrite Hc, Hn. Qed.

Lemma gatherInput_missing_source g fuel n es : ∀ inputData s inputData' s',
  (∃ e, e ∈ es ∧ edgeTarget e = n
        ∧ nodes g !! edgeSource e = None
        ∧ pipeCache s !! edgeSource e = None) →
  gatherInput (loadCache g fuel) n es inputData s ≠ Returned inputData' s'.
Proof.
  induction es as [|edge es IH]; simpl;
    intros inputData s inputData' s' (e & He & Ht & Hn & Hc).
  - by apply elem_of_nil in He.
  - apply elem_of_cons in He as [->|He].
    + rewrite decide_True by done.
      destruct (loadCache g fuel (edgeSource edge) s) as [entry s1| |] eqn:Hl;
        [|done|done].
      by apply loadCache_missing_not_returned in Hl.
    + destruct (decide (edgeTarget edge = n)) as [Hte|Hte]; [|apply IH; eauto 6].
      destruct (loadCache g fuel (edgeSource edge) s) as [entry s1| |] eqn:Hl;
        [|done|done].
      pose proof (loadCache_keeps_missing _ _ _ _ _ _ _ Hl Hn Hc) as Hc1.
      destruct (entryOutput entry ≫= _); [|apply IH; eauto 6].
      destruct (inputData !! targetHandle edge); apply IH; eauto 6.
Qed.

(** The only exception [loadCache] lets through is the lookup of a missing
    node. *)
Lemma gatherInput_raised load n es :
  (∀ m s x s', load m s = Raised x s' → x = typeError) →
  ∀ inputData s x s',
    gatherInput load n es inputData s = Raised x s' → x = typeError.
Proof.
  intros Hload. induction es as [|edge es IH]; simpl; intros inputData s x s';
    [done|].
  destruct (decide (edgeTarget edge = n)); [|by apply IH].
  destruct (load (edgeSource edge) s) as [entry s1|x1 s1|] eqn:Hl; [| |done].
  - destruct (entryOutput entry ≫= _); [|by apply IH].
    destruct (inputData !! targetHandle edge); by apply IH.
  - intros [= <- <-]. by eapply Hload.
Qed.

Lemma loadCache_raised g fuel : ∀ n s x s',
  loadCache g fuel n s = Raised x s' → x = typeError.
Proof.
  induction fuel as [|fuel IH]; intros n s x s'; simpl; [done|].
  destruct (pipeCache s !! n); [done|].
  destruct (nodes g !! n) as [node|]; [|by intros [= <- <-]].
  destruct (gatherInput _ _ _ _ _) as [inputData s1|x1 s1|] eqn:Hg; [| |done].
  - by destruct (calcCache _ _ _ _ _ _).
  - intros [= <- <-]. by eapply gatherInput_raised.
Qed.

(** Where [o[k]] is [undefined] the map has no entry, and on a key that
    [Object.prototype] does not have the map is the object. *)
Lemma getProperty_undefined {A} (o : gmap string A) k :
  getProperty o k = UndefinedProperty → o !! k = None ∧ ownKey k.
Proof.
  unfold getProperty, ownKey. destruct (o !! k); [done|].
  case_bool_decide; [done|]. done.
Qed.

Lemma getProperty_own {A} (o : gmap string A) k :
  ownKey k →
  getProperty o k
  = match o !! k with Some a => OwnProperty a | None => UndefinedProperty end.
Proof.
  unfold getProperty, ownKey. intros Hk. destruct (o !! k); [done|].
  by rewrite bool_decide_eq_false_2.
Qed.

(** C7, as the code has it, on graphs and tables whose ids are not keys of
    [Object.prototype] (there the maps are the objects of the code).  An
    edge whose source is neither a node of the graph nor a key of the memo
    table, [nodes[source]] and [pipeCache.current[source]] both
    [undefined], is not ignored: resolving the missing source raises a
    [TypeError], and resolving the target of the edge (not yet in the
    table) never returns an entry; on a graph without cycles it ends with
    that [TypeError]. *)
Theorem dangling_source_raises g n s e :
  plainGraph g → plainCache s →
  e ∈ edges g → edgeTarget e = n →
  getProperty (nodes g) (edgeSource e) = UndefinedProperty →
  getProperty (pipeCache s) (edgeSource e) = UndefinedProperty →
  getProperty (pipeCache s) n = UndefinedProperty →
  (∀ fuel, loadCache g (S fuel) (edgeSource e) s = Raised typeError s)
  ∧ (∀ fuel entry s', loadCache g fuel n s ≠ Returned entry s')
  ∧ (∀ rank fuel, acyclic g rank → rank n < fuel →
       ∃ s', loadCache g fuel n s = Raised typeError s').
Proof.
  intros _ _ He Ht [Hn _]%getProperty_undefined [Hc _]%getProperty_undefined
    [Hcn _]%getProperty_undefined.
  assert (∀ fuel entry s', loadCache g fuel n s ≠ Returned entry s') as Hnot.
  { intros [|fuel] entry s'; simpl; [done|]. rewrite Hcn.
    destruct (nodes g !! n) as [node|]; [|done].
    destruct (gatherInput _ _ _ _ _) as [inputData s1| |] eqn:Hg; [|done|done].
    exfalso. revert Hg. apply gatherInput_missing_source. eauto 6. }
  split; [intros fuel; by apply loadCache_missing_node|]. split; [done|].
  intros rank fuel Hac Hr.
  destruct (loadCache g fuel n s) as [entry s'|x s'|] eqn:Hl.
  - by apply Hnot in Hl.
  - exists s'. by rewrite (loadCache_raised _ _ _ _ _ _ Hl).
  - by eapply loadCache_fuel in Hl.
Qed.

(** ** The aliasing of upstream arrays *)

(** C8 at a failing input.  Nodes ["0"] and ["1"] are text inputs and both
    feed the port ["data-in"] of node ["2"].  Once ["0"] and ["1"] are in
    the table the stored entry of ["0"] reads [a]; resolving ["2"] leaves
    the same entry in the table, and it now reads [a; b]: the loop has
    pushed the values of ["1"] into the array of ["0"]. *)
Theorem aggregation_writes_upstream_entry :
  let g := aggregationGraph (flatMapper (λ v, [v])) in
  let s1 := stateOf (loadAll g 2 ["0"; "1"] s0) in
  let s2 := stateOf (loadCache g 2 "2" s1) in
  let entry0 := OutputCacheEntry ∅ {["text-out" := 0]} in
  loadAll g 2 ["0"; "1"] s0 = Returned tt s1
  ∧ pipeCache s1 !! "0" = Some entry0
  ∧ entryValue (heap s1) entry0 = OutputValue ∅ {["text-out" := ["a"]]}
  ∧ (∃ entry2, loadCache g 2 "2" s1 = Returned entry2 s2)
  ∧ pipeCache s2 !! "0" = Some entry0
  ∧ entryValue (heap s2) entry0 = OutputValue ∅ {["text-out" := ["a"; "b"]]}.
Proof.
  cbv zeta. split; [by vm_compute|]. split; [by vm_compute|].
  split; [by vm_compute|]. split; [eexists; by vm_compute|].
  split; by vm_compute.
Qed.

(** C4 at a failing input.  The first text input feeds the ports [title]
    and [link] of the feed node and the second feeds [title].  The
    specification gives [link] the output of the first input, [a]; the
    bundle built by [loadCache] holds one array under both ports, so
    [link] reads [a; b].  Read after the call instead, the upstream
    outputs would give [title] the sequence [a; b; b], and the bundle has
    [a; b]. *)
Theorem aggregation_aliases_ports feedMapper :
  let g := feedGraph feedMapper in
  let s1 := stateOf (loadAll g 2 ["0"; "1"] s0) in
  let s2 := stateOf (loadCache g 2 "Feed" s1) in
  let inputData : Bundle := <["link" := 0]> (<["title" := 0]> ∅) in
  loadAll g 2 ["0"; "1"] s0 = Returned tt s1
  ∧ loadCache g 2 "Feed" s1
    = Returned (ErrorCacheEntry inputData "Missing input") s2
  ∧ bundleValue (heap s2) inputData
    = <["link" := ["a"; "b"]]> (<["title" := ["a"; "b"]]> ∅)
  ∧ specInput g s1 "Feed" "title" = ["a"; "b"]
  ∧ specInput g s1 "Feed" "link" = ["a"]
  ∧ specInput g s2 "Feed" "title" = ["a"; "b"; "b"]
  ∧ specInput g s2 "Feed" "link" = ["a"; "b"].
Proof. cbv zeta. repeat split; by vm_compute. Qed.

(** ** Instances *)

Lemma memoization_witness :
  (∃ new,
     invoked (stateOf (recalculate (aggregationGraph (flatMapper (λ v, [v]))) ["0"; "1"; "2"] 3 s0))
       = invoked s0 ++ new ∧ NoDup new.*1)
  ∧ (∀ keys' fuel',
       recalculate (aggregationGraph (flatMapper (λ v, [v]))) keys' fuel'
           (stateOf (recalculate (aggregationGraph (flatMapper (λ v, [v]))) ["0"; "1"; "2"] 3 s0))
         = Returned tt
             (stateOf (recalculate (aggregationGraph (flatMapper (λ v, [v]))) ["0"; "1"; "2"] 3 s0)))
  ∧ ∀ n, is_Some (nodes (aggregationGraph (flatMapper (λ v, [v]))) !! n) →
      ∃ entry, ∀ fuel1 fuel2,
        loadCache (aggregationGraph (flatMapper (λ v, [v]))) (S fuel1) n
            (stateOf (recalculate (aggregationGraph (flatMapper (λ v, [v]))) ["0"; "1"; "2"] 3 s0))
          = Returned entry
              (stateOf (recalculate (aggregationGraph (flatMapper (λ v, [v]))) ["0"; "1"; "2"] 3 s0))
        ∧ loadCache (aggregationGraph (flatMapper (λ v, [v]))) (S fuel2) n
            (stateOf (recalculate (aggregationGraph (flatMapper (λ v, [v]))) ["0"; "1"; "2"] 3 s0))
          = Returned entry
              (stateOf (recalculate (aggregationGraph (flatMapper (λ v, [v]))) ["0"; "1"; "2"] 3 s0)).
Proof.
  apply (memoization (aggregationGraph (flatMapper (λ v, [v]))) ["0"; "1"; "2"] 3 s0).
  - split; [apply (bool_decide_unpack _); vm_compute; reflexivity|].
    vm_compute. reflexivity.
  - reflexivity.
  - vm_compute. reflexivity.
Defined.

Lemma memo_table_complete_witness :
  pipeCacheValid (stateOf (recalculate (aggregationGraph (flatMapper (λ v, [v]))) ["0"; "1"; "2"] 3 s0))
    = true
  ∧ ∀ n,
      is_Some (pipeCache
                 (stateOf (recalculate (aggregationGraph (flatMapper (λ v, [v]))) ["0"; "1"; "2"] 3 s0))
               !! n)
      ↔ is_Some (nodes (aggregationGraph (flatMapper (λ v, [v]))) !! n).
Proof.
  apply (memo_table_complete (aggregationGraph (flatMapper (λ v, [v]))) ["0"; "1"; "2"] 3 s0).
  - split; [apply (bool_decide_unpack _); vm_compute; reflexivity|].
    vm_compute. reflexivity.
  - reflexivity.
  - vm_compute. reflexivity.
Defined.

Lemma missing_required_input_witness :
  ∃ s',
    loadCache (feedGraph feedStandIn) 2 "Feed" s0
      = Returned
          (ErrorCacheEntry (<["link" := 0]> (<["title" := 0]> ∅)) "Missing input") s'
    ∧ pipeCache s' !! "Feed"
      = Some (ErrorCacheEntry (<["link" := 0]> (<["title" := 0]> ∅)) "Missing input")
    ∧ ∃ new, invoked s' = invoked s0 ++ new ∧ "Feed" ∉ new.*1.
Proof.
  apply (missing_required_input (feedGraph feedStandIn) 1 "Feed" s0
           (mkNode FeedOutputNode_handles (OkPipe feedStandIn)) feedStandIn
           (<["link" := 0]> (<["title" := 0]> ∅))
           (stateOf (gatherInput (loadCache (feedGraph feedStandIn) 1) "Feed"
                       (edges (feedGraph feedStandIn)) ∅ s0))
           {| id := "description"; label := "Description"; group := Some "feed";
              optional := None |}).
  - reflexivity.
  - vm_compute. reflexivity.
  - reflexivity.
  - vm_compute. reflexivity.
  - simpl. do 2 apply list_elem_of_further. apply list_elem_of_here.
  - reflexivity.
  - right. left. vm_compute. reflexivity.
Defined.

Lemma implementation_fault_witness :
  ∃ s' fault,
    loadCache (aggregationGraph throwingMapper) 2 "2" s0
      = Returned
          (ErrorCacheEntry (<["data-in" := 0]> ∅) "Error in node implementation") s'
    ∧ console s'
      = console (stateOf (gatherInput (loadCache (aggregationGraph throwingMapper) 1)
                            "2" (edges (aggregationGraph throwingMapper)) ∅ s0))
        ++ [("ERR in node implementation: ", fault)]
    ∧ fault = "boom".
Proof.
  apply (implementation_fault (aggregationGraph throwingMapper) 1 "2" s0
           (mkNode RegexNode_handles (OkPipe throwingMapper)) throwingMapper
           (<["data-in" := 0]> ∅)
           (stateOf (gatherInput (loadCache (aggregationGraph throwingMapper) 1)
                       "2" (edges (aggregationGraph throwingMapper)) ∅ s0))).
  - reflexivity.
  - vm_compute. reflexivity.
  - reflexivity.
  - vm_compute. reflexivity.
  - intros handle Hh _. simpl in Hh. apply list_elem_of_singleton in Hh as ->.
    exists 0. split; [reflexivity|]. vm_compute. discriminate.
  - left. eexists _, _. reflexivity.
Defined.

Lemma optional_ports_as_gathered_witness :
  ∃ entry s',
    loadCache emptyLanguageGraph 3 "Feed" s0 = Returned entry s'
    ∧ invoked s'
      = invoked (stateOf (gatherInput (loadCache emptyLanguageGraph 2) "Feed"
                            (edges emptyLanguageGraph) ∅ s0))
        ++ [("Feed", emptyLanguageBundle)]
    ∧ (∀ p, emptyLanguageBundle !! p = None
            ↔ ∀ e, e ∈ edges emptyLanguageGraph → edgeTarget e = "Feed" →
                   targetHandle e = p →
                   edgeArray
                     (stateOf (gatherInput (loadCache emptyLanguageGraph 2)
                                 "Feed" (edges emptyLanguageGraph) ∅ s0)) e
                   = None)
    ∧ (∀ outputData h',
         feedStandIn emptyLanguageBundle
           (heap (stateOf (gatherInput (loadCache emptyLanguageGraph 2) "Feed"
                             (edges emptyLanguageGraph) ∅ s0)))
         = Returns outputData h' →
         (∀ handle, handle ∈ source (handles (data
              (mkNode FeedOutputNode_handles (OkPipe feedStandIn)))) →
            is_Some (outputData !! id handle)) →
         entry = OutputCacheEntry emptyLanguageBundle outputData).
Proof.
  apply (optional_ports_as_gathered emptyLanguageGraph 2 "Feed" s0
           (mkNode FeedOutputNode_handles (OkPipe feedStandIn)) feedStandIn).
  - reflexivity.
  - vm_compute. reflexivity.
  - reflexivity.
  - vm_compute. reflexivity.
  - intros handle Hh Hunmet. simpl in Hh.
    repeat (apply elem_of_cons in Hh as [->|Hh]); try reflexivity;
      try (by apply elem_of_nil in Hh);
      exfalso; destruct Hunmet as [Hu|(arr & Hu & Hnil)];
      vm_compute in Hu; try discriminate Hu;
      injection Hu as <-; vm_compute in Hnil; discriminate Hnil.
Defined.

(** The regex node finds no match, so the optional port [language] of the
    feed node is wired to an empty output: every unmet port of the feed
    node is optional, its mapper is called, and the bundle it is called
    with has an entry for [language], an empty array. *)
Lemma optional_port_present_counterexample :
  gatherInput (loadCache emptyLanguageGraph 2) "Feed"
    (edges emptyLanguageGraph) ∅ s0
  = Returned emptyLanguageBundle
      (stateOf (gatherInput (loadCache emptyLanguageGraph 2) "Feed"
                  (edges emptyLanguageGraph) ∅ s0))
  ∧ (∀ handle, handle ∈ target FeedOutputNode_handles →
       (emptyLanguageBundle !! id handle = None
        ∨ ∃ arr, emptyLanguageBundle !! id handle = Some arr
                 ∧ readArray
                     (heap (stateOf (gatherInput
                                       (loadCache emptyLanguageGraph 2) "Feed"
                                       (edges emptyLanguageGraph) ∅ s0))) arr
                   = []) →
       isOptional handle = true)
  ∧ emptyLanguageBundle !! "language" = Some 1
  ∧ readArray
      (heap (stateOf (gatherInput (loadCache emptyLanguageGraph 2) "Feed"
                        (edges emptyLanguageGraph) ∅ s0))) 1 = []
  ∧ ∃ s',
      loadCache emptyLanguageGraph 3 "Feed" s0
      = Returned (OutputCacheEntry emptyLanguageBundle {["feed-out" := 2]}) s'
      ∧ invoked s'
        = [("0", ∅); ("2", {["data-in" := 0]}); ("Feed", emptyLanguageBundle)].
Proof.
  split; [by vm_compute|]. split; [|split; [by vm_compute|]].
  - intros handle Hh Hunmet. simpl in Hh.
    repeat (apply elem_of_cons in Hh as [->|Hh]); try reflexivity;
      try (by apply elem_of_nil in Hh);
      exfalso; destruct Hunmet as [Hu|(arr & Hu & Hnil)];
      vm_compute in Hu; try discriminate Hu;
      injection Hu as <-; vm_compute in Hnil; discriminate Hnil.
  - split; [by vm_compute|]. eexists. split; by vm_compute.
Qed.

Lemma dangling_source_raises_witness :
  (∀ fuel, loadCache danglingGraph (S fuel) "9" s0 = Raised typeError s0)
  ∧ (∀ fuel entry s', loadCache danglingGraph fuel "2" s0 ≠ Returned entry s')
  ∧ (∀ rank fuel, acyclic danglingGraph rank → rank "2" < fuel →
       ∃ s', loadCache danglingGraph fuel "2" s0 = Raised typeError s').
Proof.
  apply (dangling_source_raises danglingGraph "2" s0
           (mkEdge "9" "text-out" "2" "data-in")).
  - apply (bool_decide_unpack _). vm_compute. reflexivity.
  - apply (bool_decide_unpack _). vm_compute. reflexivity.
  - simpl. apply list_elem_of_here.
  - reflexivity.
  - vm_compute. reflexivity.
  - reflexivity.
  - reflexivity.
Defined.

(** The edge from the missing node ["9"] makes the resolution of its target
    ["2"] end in an exception, whatever the depth allowed. *)
Lemma dangling_edge_counterexample :
  loadCache danglingGraph 2 "2" s0 = Raised typeError s0
  ∧ ¬ ∃ fuel entry s', loadCache danglingGraph fuel "2" s0 = Returned entry s'.
Proof.
  split; [by vm_compute|]. intros (fuel & entry & s' & Hl).
  destruct fuel as [|[|fuel]]; [done|done|]. revert Hl.
  change (loadCache danglingGraph (S (S fuel)) "2" s0)
    with (Raised (A := CacheEntry) typeError s0). done.
Qed.

Lemma onConnect_rejects_witness :
  onConnect appendEdge (mkEdge "0" "text-out" "0" "data-in")
    ([mkEdge "0" "text-out" "2" "data-in"], true)
  = ([mkEdge "0" "text-out" "2" "data-in"], true)
  ∧ onConnect appendEdge (mkEdge "0" "text-out" "2" "data-in")
      ([mkEdge "0" "text-out" "2" "data-in"], true)
    = ([mkEdge "0" "text-out" "2" "data-in"], true).
Proof.
  split.
  - apply (onConnect_rejects appendEdge). left. reflexivity.
  - apply (onConnect_rejects appendEdge). right.
    exists (mkEdge "0" "text-out" "2" "data-in").
    split; [apply list_elem_of_here|]. repeat split; reflexivity.
Defined.

(** * Further properties of the code *)

(** ** pipe.ts *)

(** X1. [mapMessage] is a functor on messages: mapping the identity changes
    nothing, and mapping twice is mapping the composition. *)
Theorem mapMessage_functor {T U V} (message : Pipe.PipeMessage T)
    (f : T → U) (h : U → V) :
  Pipe.mapMessage message (λ t, t) = message
  ∧ Pipe.mapMessage (Pipe.mapMessage message f) h
    = Pipe.mapMessage message (λ t, h (f t)).
Proof. by destruct message. Qed.

(** ** Entries and pipe values *)

Lemma calcCache_fits nodeID node inputData s :
  entryFits node
    (calcCache nodeID (target (handles (data node)))
       (source (handles (data node))) (pipeValue (data node)) inputData s).1.
Proof.
  unfold entryFits, calcCache.
  destruct (pipeValue (data node)) as [mapper| |]; simpl; try done.
  destruct (existsb _ _) eqn:Hex; simpl; [by left|].
  destruct (mapper _ _) as [o h'|e h']; simpl; [|by right].
  destruct (List.find _ _) as [h0|] eqn:Hfind; simpl; [by right|]. split.
  - intros handle Hh Hopt. apply list_elem_of_In in Hh.
    destruct (inputData !! id handle) eqn:Hi; [eauto|]. exfalso.
    apply not_true_iff_false in Hex. apply Hex, existsb_exists.
    exists handle. split; [done|]. apply missingInput_true. auto.
  - intros handle Hh. apply list_elem_of_In in Hh.
    eapply find_none in Hfind; [|done].
    unfold missingOutput in Hfind. rewrite bool_decide_eq_false in Hfind.
    destruct (o !! id handle); [eauto|done].
Qed.

Lemma gatherInput_fits g load n es :
  (∀ m s entry s', load m s = Returned entry s' → cacheFits g s → cacheFits g s') →
  ∀ inputData s inputData' s',
    gatherInput load n es inputData s = Returned inputData' s' →
    cacheFits g s → cacheFits g s'.
Proof.
  intros Hload. induction es as [|edge es IH]; simpl;
    intros inputData s inputData' s'.
  - by intros [= <- <-].
  - destruct (decide (edgeTarget edge = n)); [|by apply IH].
    destruct (load (edgeSource edge) s) as [entry s1| |] eqn:Hl; try done.
    intros Hg Hs. pose proof (Hload _ _ _ _ Hl Hs) as Hs1.
    destruct (entryOutput entry ≫= _); [|by eapply IH].
    destruct (inputData !! targetHandle edge); by eapply IH.
Qed.

Lemma loadCache_fits g fuel : ∀ n s entry s',
  loadCache g fuel n s = Returned entry s' → cacheFits g s → cacheFits g s'.
Proof.
  induction fuel as [|fuel IH]; intros n s entry s'; simpl; [done|].
  destruct (pipeCache s !! n) as [e0|]; [by intros [= <- <-]|].
  destruct (nodes g !! n) as [node|] eqn:Hn; [|done].
  destruct (gatherInput _ _ _ _ _) as [inputData s1| |] eqn:Hg; try done.
  pose proof (calcCache_fits n node inputData s1) as Hfit.
  pose proof (calcCache_pipeCache n (target (handles (data node)))
    (source (handles (data node))) (pipeValue (data node)) inputData s1) as Hpc.
  destruct (calcCache _ _ _ _ _ _) as [cacheEntry s2]. simpl in Hfit, Hpc.
  intros [= <- <-] Hs x entry' node'. simpl. rewrite Hpc.
  destruct (decide (x = n)) as [->|Hne].
  - rewrite lookup_insert_eq, Hn. by intros [= <-] [= <-].
  - rewrite lookup_insert_ne by done.
    apply (gatherInput_fits _ _ _ _ IH _ _ _ _ Hg Hs).
Qed.

Lemma loadAll_fits g fuel ids : ∀ s s',
  loadAll g fuel ids s = Returned tt s' → cacheFits g s → cacheFits g s'.
Proof.
  induction ids as [|n ids IH]; simpl; intros s s'; [by intros [= <-]|].
  destruct (loadCache g fuel n s) as [entry s1| |] eqn:Hl; try done.
  intros Hrest Hs. eapply IH; [done|]. by eapply loadCache_fits.
Qed.

(** X2. After a recalculation the entry of every node is one its pipe value
    allows: the fixed text for an unconfigured node, the node's own message
    for a failed one, and for a ready node either one of two fixed errors
    or an output with every declared output port, computed from an input
    with every required input port. *)
Theorem recalculated_entries_fit g keys fuel s s' n node :
  forInOrder (nodes g) keys →
  pipeCacheValid s = false →
  recalculate g keys fuel s = Returned tt s' →
  nodes g !! n = Some node →
  ∃ entry, pipeCache s' !! n = Some entry ∧ entryFits node entry.
Proof.
  intros Hk Hv Hr Hn.
  unfold recalculate in Hr. rewrite Hv in Hr.
  destruct (loadAll _ _ _ _) as [[] s1| |] eqn:Hl; try done.
  injection Hr as <-.
  destruct (loadAll_grows _ _ _ _ _ [] Hl) as (l & ((_ & Hdom) & _ & _) & Hin).
  { split; [constructor|]. intros x. simpl. rewrite lookup_empty, elem_of_nil.
    split; [done|]. by intros [? ?]. }
  destruct (proj1 (Hdom n)) as [entry He].
  { apply Hin, (forInOrder_spec _ _ _ Hk). by rewrite Hn. }
  exists entry. split; [done|].
  eapply (loadAll_fits _ _ _ _ _ Hl); [|done..].
  intros x e0 node0. simpl. by rewrite lookup_empty.
Qed.

Lemma recalculate_cache g keys fuel s s' :
  forInOrder (nodes g) keys →
  pipeCacheValid s = false →
  recalculate g keys fuel s = Returned tt s' →
  (∀ k, is_Some (pipeCache s' !! k) ↔ is_Some (nodes g !! k)) ∧ cacheFits g s'.
Proof.
  intros Hk Hv Hr.
  unfold recalculate in Hr. rewrite Hv in Hr.
  destruct (loadAll _ _ _ _) as [[] s1| |] eqn:Hl; try done.
  injection Hr as <-.
  destruct (loadAll_grows _ _ _ _ _ [] Hl) as (l & ((_ & Hdom) & Hu & _) & Hin).
  { split; [constructor|]. intros x. simpl. rewrite lookup_empty, elem_of_nil.
    split; [done|]. by intros [? ?]. }
  split.
  - intros k. simpl. rewrite <- Hdom, app_nil_r. split.
    + intros Hx. by eapply upstreamFirst_nodes.
    + intros Hx. apply (forInOrder_spec _ _ _ Hk) in Hx.
      specialize (Hin k Hx). by rewrite app_nil_r in Hin.
  - apply (loadAll_fits _ _ _ _ _ Hl).
    intros x e0 node0. simpl. by rewrite lookup_empty.
Qed.

(** ** The update channel *)

(** X3. [handleNodeMessage] always clears the validity flag.  For a sender that
    is not a node the updater throws; otherwise it replaces the pipe value
    of the sender and nothing else: the edges, the set of node ids, the
    other nodes and the sender's handles are as before. *)
Theorem handleNodeMessage_updates message g s :
  pipeCacheValid (handleNodeMessage message g s).2 = false
  ∧ match (handleNodeMessage message g s).1 with
    | None => nodes g !! Pipe.fromNode message = None
    | Some g' =>
      edges g' = edges g
      ∧ dom (nodes g') = dom (nodes g)
      ∧ (∀ k, k ≠ Pipe.fromNode message → nodes g' !! k = nodes g !! k)
      ∧ ∃ node node',
          nodes g !! Pipe.fromNode message = Some node
          ∧ nodes g' !! Pipe.fromNode message = Some node'
          ∧ handles (data node') = handles (data node)
          ∧ pipeValue (data node') = pipeValueOf message
    end.
Proof.
  split; [done|]. unfold handleNodeMessage. simpl.
  destruct (nodes g !! Pipe.fromNode message) as [node|] eqn:Hn; [|done].
  simpl. split; [done|]. split.
  - rewrite dom_insert_L. apply elem_of_dom_2 in Hn.
    apply set_eq. intros k. rewrite elem_of_union, elem_of_singleton.
    split; [by intros [->|?]|by right].
  - split; [intros k Hk; by rewrite lookup_insert_ne|].
    eexists node, _. rewrite lookup_insert_eq. done.
Qed.

(** X4. A message is in force at the next render, whatever the flag was before
    it: the recalculation that follows [handleNodeMessage] gives entries to
    the same node ids as before, and to the sender an entry for the pipe
    value of the message: the fixed text for [BadConfig], the error of the
    message itself for [Err], and for [Ok] an output with all the declared
    output ports or one of the two fixed errors. *)
Theorem message_reaches_cache message g s g' s1 keys fuel s' :
  handleNodeMessage message g s = (Some g', s1) →
  forInOrder (nodes g') keys →
  recalculate g' keys fuel s1 = Returned tt s' →
  (∀ k, is_Some (pipeCache s' !! k) ↔ is_Some (nodes g !! k))
  ∧ ∃ entry node,
      pipeCache s' !! Pipe.fromNode message = Some entry
      ∧ nodes g !! Pipe.fromNode message = Some node
      ∧ match message, entry with
        | Pipe.BadConfigMessage _, ErrorCacheEntry _ e =>
          e = "Node configuration is invalid"
        | Pipe.ErrMessage _ error, ErrorCacheEntry _ e => e = error
        | Pipe.OkMessage _ _, ErrorCacheEntry _ e =>
          e = "Missing input" ∨ e = "Error in node implementation"
        | Pipe.OkMessage _ _, OutputCacheEntry _ o =>
          ∀ handle, handle ∈ source (handles (data node)) →
                    is_Some (o !! id handle)
        | _, OutputCacheEntry _ _ => False
        end.
Proof.
  unfold handleNodeMessage. intros Hm Hk Hr.
  destruct (nodes g !! Pipe.fromNode message) as [node|] eqn:Hn; [|done].
  injection Hm as <- <-.
  assert (pipeCacheValid (setValid false s) = false) as Hv by done.
  destruct (recalculate_cache _ _ _ _ _ Hk Hv Hr) as [Hdom Hfit].
  simpl in Hdom. split.
  - intros k. rewrite Hdom. destruct (decide (k = Pipe.fromNode message)) as [->|Hne].
    + rewrite lookup_insert_eq, Hn. split; eauto.
    + by rewrite lookup_insert_ne.
  - destruct (proj2 (Hdom (Pipe.fromNode message))) as [entry He].
    { by rewrite lookup_insert_eq. }
    exists entry, node. split; [done|]. split; [done|].
    specialize (Hfit _ _ _ He (lookup_insert_eq _ _ _)).
    unfold entryFits in Hfit. simpl in Hfit.
    destruct message, entry; try done. by destruct Hfit.
Qed.

(** ** Upstream errors *)

Lemma gatherInput_no_contribution g fuel n es inputData s :
  (∀ e, e ∈ es → edgeTarget e = n →
     ∃ entry, pipeCache s !! edgeSource e = Some entry
              ∧ entryOutput entry ≫= (λ o, o !! sourceHandle e) = None) →
  gatherInput (loadCache g (S fuel)) n es inputData s = Returned inputData s.
Proof.
  induction es as [|edge es IH]; intros Hes; [done|].
  assert (gatherInput (loadCache g (S fuel)) n es inputData s
          = Returned inputData s) as IH'.
  { apply IH. intros e He. apply Hes. by apply elem_of_cons; right. }
  cbn [gatherInput]. destruct (decide (edgeTarget edge = n)) as [Ht|Ht]; [|done].
  destruct (Hes edge) as (entry & Hc & Hout); [by apply elem_of_cons; left|done|].
  rewrite (loadCache_hit _ _ _ _ _ Hc), Hout. done.
Qed.

(** X5. Errors do not travel along edges.  A node whose upstream entries are
    all in the table and are errors, or outputs without the port the edge
    reads, is evaluated exactly as if it had no edge at all: on the empty
    input bundle, with no array touched by the loop. *)
Theorem upstream_errors_contribute_nothing g fuel n s :
  pipeCache s !! n = None →
  (∀ e, e ∈ edges g → edgeTarget e = n →
     ∃ entry, pipeCache s !! edgeSource e = Some entry
              ∧ match entry with
                | ErrorCacheEntry _ _ => True
                | OutputCacheEntry _ o => o !! sourceHandle e = None
                end) →
  loadCache g (S (S fuel)) n s
  = loadCache {| nodes := nodes g; edges := [] |} 1 n s.
Proof.
  intros Hc Hes. destruct (nodes g !! n) as [node|] eqn:Hn.
  - rewrite (loadCache_miss g (S fuel) n s node ∅ s Hc Hn).
    + by rewrite (loadCache_miss {| nodes := nodes g; edges := [] |} 0 n s
                    node ∅ s Hc Hn eq_refl).
    + apply gatherInput_no_contribution.
      intros e He Ht. destruct (Hes e He Ht) as (entry & Hce & Hout).
      exists entry. split; [done|]. by destruct entry.
  - by rewrite !loadCache_missing_node.
Qed.

(** ** When the recalculation returns *)

Lemma rankIn_le l x : (rankIn l x ≤ length l)%nat.
Proof.
  induction l as [|y b IH]; simpl; [lia|]. destruct (decide (x = y)); lia.
Qed.

Lemma upstreamFirst_rank g l d :
  NoDup (l ++ d) → upstreamFirst g l d →
  ∀ x e, x ∈ l → e ∈ edges g → edgeTarget e = x →
    edgeSource e ∈ l ++ d
    ∧ rankIn (l ++ d) (edgeSource e) < rankIn (l ++ d) x.
Proof.
  induction l as [|y b IH]; simpl; intros Hnd Hu x e Hx He Ht;
    [by apply elem_of_nil in Hx|].
  apply NoDup_cons in Hnd as [Hy Hnd]. destruct Hu as (_ & Hsrc & Hu).
  assert (∀ z, z ∈ b ++ d → z ≠ y) as Hne by (intros z Hz ->; done).
  apply elem_of_cons in Hx as [->|Hx].
  - pose proof (Hsrc e He Ht) as Hs. split; [by apply elem_of_cons; right|].
    rewrite decide_False by (by apply Hne). rewrite decide_True by done.
    pose proof (rankIn_le (b ++ d) (edgeSource e)). lia.
  - destruct (IH Hnd Hu x e Hx He Ht) as [Hs Hr].
    split; [by apply elem_of_cons; right|].
    rewrite !decide_False; [done|..]; apply Hne; [|done].
    apply elem_of_app. by left.
Qed.

(** A recalculation that returns has found an order of the nodes in which
    every edge into a node comes from an earlier node. *)
Lemma recalculate_resolvable g keys fuel s s' :
  forInOrder (nodes g) keys →
  pipeCacheValid s = false →
  recalculate g keys fuel s = Returned tt s' →
  ∃ rank, resolvable g rank.
Proof.
  intros Hk Hv Hr.
  destruct (recalculate_grows _ _ _ _ _ Hk Hv Hr)
    as (s1 & l & _ & ((Hnd & _) & Hu & _) & Hin).
  exists (rankIn l). intros e He Ht.
  destruct (upstreamFirst_rank g l [] Hnd Hu (edgeTarget e) e) as [Hs Hrk];
    [by apply Hin|done|done|].
  rewrite app_nil_r in Hs, Hrk. split; [by eapply upstreamFirst_nodes|done].
Qed.

Lemma gatherInput_returned load n es :
  (∀ e, e ∈ es → edgeTarget e = n →
     ∀ s, ∃ entry s', load (edgeSource e) s = Returned entry s') →
  ∀ inputData s, ∃ inputData' s',
    gatherInput load n es inputData s = Returned inputData' s'.
Proof.
  induction es as [|edge es IH]; simpl; intros Hl inputData s; [eauto|].
  assert (∀ e, e ∈ es → edgeTarget e = n →
            ∀ s, ∃ entry s', load (edgeSource e) s = Returned entry s')
    as Hl' by (intros; apply Hl; [by apply elem_of_cons; right|done]).
  destruct (decide (edgeTarget edge = n)) as [Ht|Ht]; [|by apply IH].
  destruct (Hl edge (list_elem_of_here _ _) Ht s) as (entry & s1 & ->).
  destruct (entryOutput entry ≫= _); [|by apply IH].
  destruct (inputData !! targetHandle edge); by apply IH.
Qed.

Lemma loadCache_returns_resolvable g rank :
  resolvable g rank → ∀ fuel n s,
  is_Some (nodes g !! n) → rank n < fuel →
  ∃ entry s', loadCache g fuel n s = Returned entry s'.
Proof.
  intros Hres. induction fuel as [|fuel IH]; intros n s [node Hn] Hr; [lia|].
  simpl. destruct (pipeCache s !! n); [eauto|]. rewrite Hn.
  destruct (gatherInput_returned (loadCache g fuel) n (edges g)) with
    (inputData := (∅ : Bundle)) (s := s) as (inputData & s1 & ->).
  { intros e He Ht s0. destruct (Hres e He) as [Hsrc Hlt]; [by rewrite Ht, Hn|].
    apply IH; [done|]. rewrite Ht in Hlt. lia. }
  destruct (calcCache _ _ _ _ _ _). eauto.
Qed.

Lemma loadAll_returns_resolvable g rank fuel ids :
  resolvable g rank →
  (∀ n, n ∈ ids → is_Some (nodes g !! n) ∧ rank n < fuel) →
  ∀ s, ∃ s', loadAll g fuel ids s = Returned tt s'.
Proof.
  intros Hres. induction ids as [|n ids IH]; simpl; intros Hids s; [eauto|].
  destruct (Hids n) as [Hn Hr]; [by apply elem_of_cons; left|].
  destruct (loadCache_returns_resolvable g rank Hres fuel n s Hn Hr)
    as (e & s1 & ->).
  apply IH. intros m Hm. apply Hids. by apply elem_of_cons; right.
Qed.

(** X6. On a graph whose node ids, edge sources and edge ports are not keys
    of [Object.prototype] (there the maps are the objects of the code),
    the recalculation of an invalidated table returns, given enough depth,
    exactly when the nodes can be ranked so that every edge into a node
    starts at a node of lower rank: no such edge starts at a missing node
    and no cycle of edges runs through the nodes. *)
Theorem recalculate_returns_iff g keys s :
  plainGraph g →
  forInOrder (nodes g) keys →
  pipeCacheValid s = false →
  (∃ fuel s', recalculate g keys fuel s = Returned tt s')
  ↔ ∃ rank, resolvable g rank.
Proof.
  intros _ Hk Hv. split.
  - intros (fuel & s' & Hr). by eapply recalculate_resolvable.
  - intros [rank Hres]. exists (S (max_list (rank <$> keys))).
    unfold recalculate. rewrite Hv.
    destruct (loadAll_returns_resolvable g rank
                (S (max_list (rank <$> keys))) keys Hres) with
      (s := setCache ∅ s) as [s1 ->]; [|eauto].
    intros n Hn. split; [by apply (forInOrder_spec _ _ _ Hk)|].
    apply Nat.lt_succ_r, max_list_elem_of_le. by apply list_elem_of_fmap_2.
Qed.

(** ** onConnect *)

(** X7. [onConnect] never adds an edge from a node to itself, whatever edge it
    is given, as long as [addEdge] adds nothing but that edge. *)
Theorem onConnect_keeps_noSelfLoop addEdge newEdge es valid :
  (∀ e l x, x ∈ addEdge e l → x = e ∨ x ∈ l) →
  noSelfLoop es →
  noSelfLoop (onConnect addEdge newEdge (es, valid)).1.
Proof.
  intros Hadd Hes. unfold onConnect. case_bool_decide as Hself; [done|].
  simpl. destruct (hasDuplicate newEdge es); [done|]. simpl.
  intros e [->|He]%Hadd; [done|by apply Hes].
Qed.

(** X8. Connecting the same edge twice is connecting it once: the second call
    finds the edge present (or rejects it as the first did) and changes
    neither the edges nor the flag. *)
Theorem onConnect_idempotent addEdge newEdge st :
  (∀ l, newEdge ∈ addEdge newEdge l) →
  onConnect addEdge newEdge (onConnect addEdge newEdge st)
  = onConnect addEdge newEdge st.
Proof.
  intros Hadd. destruct st as [es valid]. unfold onConnect.
  case_bool_decide as Hself; [done|].
  simpl. destruct (hasDuplicate newEdge es) eqn:Hdup; simpl.
  - by rewrite Hdup.
  - assert (hasDuplicate newEdge (addEdge newEdge es) = true) as Hdup'.
    { apply hasDuplicate_true. exists newEdge.
      split; [apply Hadd|repeat split]. }
    by rewrite Hdup'.
Qed.

(** X9. [onConnect] does not look for cycles.  Where the edges already lead
    from node [a] to node [b], it accepts a new edge from [b] back to [a],
    and on the graph so obtained the recalculation never returns. *)
Theorem onConnect_closes_cycle addEdge ns es valid e newEdge keys fuel s s' :
  (∀ l, newEdge ∈ addEdge newEdge l) →
  (∀ l x, x ∈ l → x ∈ addEdge newEdge l) →
  e ∈ es →
  edgeSource newEdge = edgeTarget e → edgeTarget newEdge = edgeSource e →
  edgeSource e ≠ edgeTarget e →
  hasDuplicate newEdge es = false →
  is_Some (ns !! edgeSource e) → is_Some (ns !! edgeTarget e) →
  forInOrder ns keys → pipeCacheValid s = false →
  (onConnect addEdge newEdge (es, valid)).2 = false
  ∧ recalculate
      {| nodes := ns; edges := (onConnect addEdge newEdge (es, valid)).1 |}
      keys fuel s ≠ Returned tt s'.
Proof.
  intros Hnew Hold He Hs Ht Hne Hdup Ha Hb Hk Hv.
  unfold onConnect. rewrite bool_decide_eq_false_2 by congruence.
  simpl. rewrite Hdup. simpl. split; [done|]. intros Hr.
  destruct (recalculate_resolvable
              {| nodes := ns; edges := addEdge newEdge es |} _ _ _ _ Hk Hv Hr)
    as [rank Hres].
  destruct (Hres e) as [_ H1]; [by apply Hold|done|].
  destruct (Hres newEdge) as [_ H2]; [by apply Hnew|simpl; by rewrite Ht|].
  rewrite Hs, Ht in H2. lia.
Qed.

(** ** Arrays when no port aggregates *)

(** Mappers that only allocate leave the arrays they find as they are. *)
Lemma calcCache_heap_prefix nodeID ihs ohs pv inputData s :
  (∀ mapper, pv = OkPipe mapper → allocates mapper) →
  heap s `prefix_of` heap (calcCache nodeID ihs ohs pv inputData s).2.
Proof.
  intros Hm. unfold calcCache. destruct pv as [mapper| |]; try done.
  destruct (existsb _ _); [done|]. simpl.
  specialize (Hm mapper eq_refl inputData (heap s)).
  destruct (mapper _ _) as [o h'|e h']; [|done].
  by destruct (List.find _ _).
Qed.

Lemma gatherInput_heap_prefix g load n :
  singleEdgePorts g →
  (∀ m s entry s', load m s = Returned entry s' → heap s `prefix_of` heap s') →
  ∀ es done inputData s inputData' s',
    edges g = done ++ es →
    (∀ p, is_Some (inputData !! p) →
          ∃ e, e ∈ done ∧ edgeTarget e = n ∧ targetHandle e = p) →
    gatherInput load n es inputData s = Returned inputData' s' →
    heap s `prefix_of` heap s'.
Proof.
  intros Hports Hload.
  induction es as [|edge es IH]; simpl;
    intros done inputData s inputData' s' Hed Hinv.
  - by intros [= <- <-].
  - assert (edges g = (done ++ [edge]) ++ es) as Hed'
      by (by rewrite <- (assoc_L (++))).
    assert (∀ p, is_Some (inputData !! p) →
              ∃ e, e ∈ done ++ [edge] ∧ edgeTarget e = n ∧ targetHandle e = p)
      as Hinv'.
    { intros p Hp. destruct (Hinv p Hp) as (e & He & Hrest).
      exists e. split; [apply elem_of_app; by left|done]. }
    destruct (decide (edgeTarget edge = n)) as [Ht|Ht]; [|by eapply IH].
    destruct (load (edgeSource edge) s) as [entry s1| |] eqn:Hl; try done.
    pose proof (Hload _ _ _ _ Hl) as Hp1.
    destruct (entryOutput entry ≫= _) as [handleInput|].
    + destruct (inputData !! targetHandle edge) as [arr|] eqn:Hth.
      * exfalso. destruct (Hinv (targetHandle edge)) as (e & He & Hte & Hhe);
          [by rewrite Hth|].
        unfold singleEdgePorts in Hports. rewrite Hed, fmap_app in Hports.
        apply NoDup_app in Hports as (_ & Hdisj & _).
        apply (Hdisj (edgeTarget e, targetHandle e)).
        -- by apply (list_elem_of_fmap_2 (λ x, (edgeTarget x, targetHandle x))).
        -- rewrite Hte, Hhe, <- Ht. simpl. apply list_elem_of_here.
      * intros Hg. etrans; [exact Hp1|]. eapply (IH _ _ _ _ _ Hed'); [|done].
        intros p Hp. destruct (decide (p = targetHandle edge)) as [->|Hne].
        -- exists edge. split; [|done]. apply elem_of_app. right.
           apply list_elem_of_here.
        -- rewrite lookup_insert_ne in Hp by done. by apply Hinv'.
    + intros Hg. etrans; [exact Hp1|]. by eapply IH.
Qed.

Lemma loadCache_heap_prefix g fuel :
  mappersAllocate g → singleEdgePorts g → ∀ n s entry s',
  loadCache g fuel n s = Returned entry s' → heap s `prefix_of` heap s'.
Proof.
  intros Hmap Hports.
  induction fuel as [|fuel IH]; intros n s entry s'; simpl; [done|].
  destruct (pipeCache s !! n) as [e0|]; [by intros [= <- <-]|].
  destruct (nodes g !! n) as [node|] eqn:Hn; [|done].
  destruct (gatherInput _ _ _ _ _) as [inputData s1| |] eqn:Hg; try done.
  pose proof (calcCache_heap_prefix n (target (handles (data node)))
    (source (handles (data node))) (pipeValue (data node)) inputData s1) as Hpre.
  destruct (calcCache _ _ _ _ _ _) as [cacheEntry s2]. simpl in Hpre.
  intros [= <- <-]. simpl. etrans.
  - eapply (gatherInput_heap_prefix g _ n Hports IH _ [] _ _ _ _ eq_refl); [|done].
    intros p [arr Hp]. by rewrite lookup_empty in Hp.
  - apply Hpre. intros mapper Hpv. by eapply Hmap.
Qed.

(** X10. Where every input port has at most one incoming edge and the mappers
    only allocate, resolving a node changes no array that existed before
    and replaces no entry: every stored entry reads afterwards as it did
    before. *)
Theorem single_edge_ports_keep_entries g fuel n s entry s' :
  mappersAllocate g → singleEdgePorts g →
  loadCache g fuel n s = Returned entry s' →
  (∀ arr values, heap s !! arr = Some values → heap s' !! arr = Some values)
  ∧ (∀ m stored, pipeCache s !! m = Some stored →
       pipeCache s' !! m = Some stored).
Proof.
  intros Hmap Hports Hl. split.
  - intros arr values Ha.
    by eapply prefix_lookup_Some, loadCache_heap_prefix.
  - by eapply loadCache_keeps_entries.
Qed.

(** ** Aggregation over distinct arrays *)

Lemma readArray_push_eq h arr values :
  arr < length h → readArray (push h arr values) arr = readArray h arr ++ values.
Proof.
  intros Hlt. unfold readArray, push. by rewrite list_lookup_insert_eq.
Qed.

Lemma readArray_push_ne h arr arr' values :
  arr ≠ arr' → readArray (push h arr values) arr' = readArray h arr'.
Proof.
  intros Hne. unfold readArray, push. by rewrite list_lookup_insert_ne.
Qed.

Lemma upstreamOutput_edgeArray s e :
  upstreamOutput s e
  = match edgeArray s e with
    | Some arr => readArray (heap s) arr
    | None => []
    end.
Proof.
  unfold upstreamOutput, edgeArray.
  destruct (pipeCache s !! edgeSource e) as [[i o|i err]|]; simpl; [|done..].
  by destruct (o !! sourceHandle e).
Qed.

Lemma arraysRead_cons s n edge es :
  arraysRead s n (edge :: es)
  = (if decide (edgeTarget edge = n)
     then (match edgeArray s edge with Some a => [a] | None => [] end)
     else []) ++ arraysRead s n es.
Proof.
  unfold arraysRead. rewrite filter_cons.
  destruct (decide (edgeTarget edge = n)); [|done]. simpl.
  by destruct (edgeArray s edge).
Qed.

Lemma specRest_cons s n p edge es :
  specRest s n p (edge :: es)
  = (if decide (edgeTarget edge = n ∧ targetHandle edge = p)
     then upstreamOutput s edge else []) ++ specRest s n p es.
Proof.
  unfold specRest. rewrite filter_cons.
  by destruct (decide (edgeTarget edge = n ∧ targetHandle edge = p)).
Qed.

Section aggregation.

Variable g : Graph.
Variable fuel : nat.
Variable n : string.
Variable s0 : Session.

(** The loop from the edges [es] on, in a state [s] whose table is that of
    [s0]: the arrays still to be read are distinct, untouched so far and
    none of them is in the bundle yet, and the bundle holds one array per
    port. *)
Lemma gatherInput_concat es : ∀ inputData s,
  pipeCache s = pipeCache s0 →
  length (heap s) = length (heap s0) →
  (∀ e, e ∈ es → edgeTarget e = n → is_Some (pipeCache s0 !! edgeSource e)) →
  NoDup (arraysRead s0 n es) →
  (∀ arr, arr ∈ arraysRead s0 n es →
     arr < length (heap s0) ∧ readArray (heap s) arr = readArray (heap s0) arr) →
  (∀ p a, inputData !! p = Some a →
     (a ∉ arraysRead s0 n es) ∧ a < length (heap s0)) →
  (∀ p q a, inputData !! p = Some a → inputData !! q = Some a → p = q) →
  ∃ inputData' s',
    gatherInput (loadCache g (S fuel)) n es inputData s = Returned inputData' s'
    ∧ pipeCache s' = pipeCache s0
    ∧ ∀ p,
        match inputData' !! p with
        | Some a =>
          readArray (heap s') a
          = (match inputData !! p with
             | Some a0 => readArray (heap s) a0
             | None => []
             end) ++ specRest s0 n p es
        | None => inputData !! p = None ∧ specRest s0 n p es = []
        end.
Proof.
  induction es as [|edge es IH]; intros inputData s Hc Hlen Hcached Hnd Hfresh
    Hused Hinj.
  - exists inputData, s. split; [done|]. split; [done|]. intros p.
    unfold specRest. simpl. destruct (inputData !! p); [by rewrite app_nil_r|done].
  - assert (∀ e, e ∈ es → edgeTarget e = n →
              is_Some (pipeCache s0 !! edgeSource e)) as Hcached'
      by (intros; apply Hcached; [by apply elem_of_cons; right|done]).
    cbn [gatherInput].
    pose proof (arraysRead_cons s0 n edge es) as HR.
    destruct (decide (edgeTarget edge = n)) as [Ht|Ht].
    2:{ simpl in HR. rewrite HR in Hnd, Hfresh, Hused.
        destruct (IH inputData s Hc Hlen Hcached' Hnd Hfresh Hused Hinj)
          as (inputData' & s' & Hg & Hc' & Hval).
        exists inputData', s'. split; [done|]. split; [done|]. intros p.
        rewrite specRest_cons, decide_False by (by intros [? _]). apply Hval. }
    destruct (Hcached edge (list_elem_of_here _ _) Ht) as [entry Hentry].
    rewrite (loadCache_hit g fuel (edgeSource edge) s entry)
      by (by rewrite Hc).
    assert (edgeArray s0 edge = entryOutput entry ≫= (λ o, o !! sourceHandle edge))
      as Harr by (unfold edgeArray; by rewrite Hentry).
    assert (∀ p, specRest s0 n p (edge :: es)
                 = (if decide (targetHandle edge = p)
                    then match edgeArray s0 edge with
                         | Some arr => readArray (heap s0) arr
                         | None => []
                         end
                    else []) ++ specRest s0 n p es)
      as Hrest.
    { intros p. rewrite specRest_cons.
      destruct (decide (targetHandle edge = p)) as [Hp|Hp].
      - rewrite decide_True by done. by rewrite upstreamOutput_edgeArray.
      - by rewrite decide_False by (by intros [_ ?]). }
    rewrite <- Harr. rewrite HR in Hnd, Hfresh, Hused.
    destruct (edgeArray s0 edge) as [arr|]; simpl in Hnd, Hfresh, Hused.
    + apply NoDup_cons in Hnd as [Harr_new Hnd].
      destruct (Hfresh arr (list_elem_of_here _ _)) as [Harr_lt Harr_val].
      assert (∀ a, a ∈ arraysRead s0 n es →
                a < length (heap s0)
                ∧ readArray (heap s) a = readArray (heap s0) a) as Hfresh'
        by (intros; apply Hfresh; by apply elem_of_cons; right).
      destruct (inputData !! targetHandle edge) as [a0|] eqn:Hth.
      * destruct (Hused _ _ Hth) as [Ha0 Ha0_lt].
        assert (a0 ≠ arr) as Hne
          by (intros ->; apply Ha0, list_elem_of_here).
        destruct (IH inputData
                    (setHeap (push (heap s) a0 (readArray (heap s) arr)) s))
          as (inputData' & s' & Hg & Hc' & Hval); try done.
        { simpl. unfold push. by rewrite length_insert. }
        { intros a Ha. destruct (Hfresh' a Ha) as [Hlt Hv]. split; [done|].
          simpl. rewrite readArray_push_ne; [done|].
          intros ->. apply Ha0. by apply elem_of_cons; right. }
        { intros p a Hp. destruct (Hused p a Hp) as [Hn Hlt]. split; [|done].
          intros Hin. apply Hn. by apply elem_of_cons; right. }
        exists inputData', s'. split; [done|]. split; [done|]. intros p.
        specialize (Hval p). rewrite Hrest. simpl in Hval.
        destruct (inputData' !! p) as [a|]; [|].
        -- rewrite Hval. destruct (inputData !! p) as [ap|] eqn:Hp.
           ++ destruct (decide (targetHandle edge = p)) as [<-|Hpne].
              ** rewrite Hth in Hp. injection Hp as <-.
                 rewrite readArray_push_eq by (by rewrite Hlen).
                 by rewrite Harr_val, <- (assoc_L (++)).
              ** rewrite readArray_push_ne; [done|].
                 intros ->. apply Hpne. by eapply Hinj.
           ++ rewrite decide_False; [done|]. intros <-. congruence.
        -- destruct Hval as [Hp Hr]. split; [done|].
           rewrite Hr, decide_False; [done|]. intros <-. congruence.
      * destruct (IH (<[targetHandle edge := arr]> inputData) s)
          as (inputData' & s' & Hg & Hc' & Hval); try done.
        { intros p a. destruct (decide (p = targetHandle edge)) as [->|Hpne].
          - rewrite lookup_insert_eq. by intros [= <-].
          - rewrite lookup_insert_ne by done. intros Hp.
            destruct (Hused p a Hp) as [Hn Hlt]. split; [|done].
            intros Hin. apply Hn. by apply elem_of_cons; right. }
        { intros p q a.
          destruct (decide (p = targetHandle edge)) as [->|Hpne];
            destruct (decide (q = targetHandle edge)) as [->|Hqne];
            rewrite ?lookup_insert_eq, ?lookup_insert_ne by done; try done.
          - intros [= <-] Hq. destruct (Hused q arr Hq) as [Hn _].
            exfalso. apply Hn, list_elem_of_here.
          - intros Hp [= <-]. destruct (Hused p arr Hp) as [Hn _].
            exfalso. apply Hn, list_elem_of_here.
          - apply Hinj. }
        exists inputData', s'. split; [done|]. split; [done|]. intros p.
        specialize (Hval p). rewrite Hrest.
        destruct (decide (targetHandle edge = p)) as [<-|Hpne].
        -- rewrite lookup_insert_eq in Hval. rewrite Hth.
           destruct (inputData' !! targetHandle edge) as [a|];
             [by rewrite Hval, Harr_val|by destruct Hval].
        -- rewrite lookup_insert_ne in Hval by done. done.
    + destruct (IH inputData s Hc Hlen Hcached' Hnd Hfresh Hused Hinj)
        as (inputData' & s' & Hg & Hc' & Hval).
      exists inputData', s'. split; [done|]. split; [done|]. intros p.
      rewrite Hrest. specialize (Hval p).
      by destruct (decide (targetHandle edge = p)).
Qed.

End aggregation.

(** With the sources in the table the loop writes only to arrays that are
    in the bundle it returns. *)
Lemma gatherInput_frame g fuel n es : ∀ inputData s inputData' s',
  (∀ e, e ∈ es → edgeTarget e = n → is_Some (pipeCache s !! edgeSource e)) →
  gatherInput (loadCache g (S fuel)) n es inputData s = Returned inputData' s' →
  (∀ p a, inputData !! p = Some a → inputData' !! p = Some a)
  ∧ ∀ arr, (∀ p, inputData' !! p ≠ Some arr) → heap s' !! arr = heap s !! arr.
Proof.
  induction es as [|edge es IH]; intros inputData s inputData' s' Hcached.
  - simpl. by intros [= <- <-].
  - assert (∀ e, e ∈ es → edgeTarget e = n →
              is_Some (pipeCache s !! edgeSource e)) as Hcached'
      by (intros; apply Hcached; [by apply elem_of_cons; right|done]).
    cbn [gatherInput].
    destruct (decide (edgeTarget edge = n)) as [Ht|Ht]; [|by apply IH].
    destruct (Hcached edge (list_elem_of_here _ _) Ht) as [entry Hentry].
    rewrite (loadCache_hit g fuel (edgeSource edge) s entry) by done.
    destruct (entryOutput entry ≫= _) as [handleInput|]; [|by apply IH].
    destruct (inputData !! targetHandle edge) as [a0|] eqn:Hth.
    + intros Hg.
      destruct (IH inputData
                  (setHeap (push (heap s) a0 (readArray (heap s) handleInput)) s)
                  inputData' s' Hcached' Hg) as [Hmono Hfr].
      split; [done|]. intros arr Harr. rewrite (Hfr arr Harr). simpl.
      unfold push. apply list_lookup_insert_ne. intros ->.
      by apply (Harr (targetHandle edge)), Hmono.
    + intros Hg. destruct (IH _ _ _ _ Hcached' Hg) as [Hmono Hfr].
      split; [|done]. intros p a Hp. apply Hmono.
      rewrite lookup_insert_ne; [done|]. intros <-. congruence.
Qed.

(** With the sources in the table, an array of the bundle is one an edge
    into that port read from the entry of its source. *)
Lemma gatherInput_sources g fuel n es : ∀ inputData s inputData' s',
  (∀ e, e ∈ es → edgeTarget e = n → is_Some (pipeCache s !! edgeSource e)) →
  gatherInput (loadCache g (S fuel)) n es inputData s = Returned inputData' s' →
  ∀ p a, inputData' !! p = Some a →
    inputData !! p = Some a
    ∨ ∃ e, e ∈ es ∧ edgeTarget e = n ∧ targetHandle e = p
           ∧ edgeArray s e = Some a.
Proof.
  induction es as [|edge es IH]; intros inputData s inputData' s' Hcached.
  - simpl. intros [= <- <-] p a Hp. by left.
  - assert (∀ e, e ∈ es → edgeTarget e = n →
              is_Some (pipeCache s !! edgeSource e)) as Hcached'
      by (intros; apply Hcached; [by apply elem_of_cons; right|done]).
    assert (∀ (i : Bundle) sa (p : string) (a : nat), pipeCache sa = pipeCache s →
              (i !! p = Some a
               ∨ ∃ e, e ∈ es ∧ edgeTarget e = n ∧ targetHandle e = p
                      ∧ edgeArray sa e = Some a) →
              i !! p = Some a
              ∨ ∃ e, e ∈ edge :: es ∧ edgeTarget e = n ∧ targetHandle e = p
                     ∧ edgeArray s e = Some a) as Hlift.
    { intros i sa p a Hsa [Hi|(e & He & Hte & Hpe & Ha)]; [by left|].
      right. exists e. split; [by apply elem_of_cons; right|].
      split; [done|]. split; [done|]. unfold edgeArray in *. by rewrite <- Hsa. }
    cbn [gatherInput].
    destruct (decide (edgeTarget edge = n)) as [Ht|Ht].
    2:{ intros Hg p a Hp. apply (Hlift inputData s); [done|]. by eapply IH. }
    destruct (Hcached edge (list_elem_of_here _ _) Ht) as [entry Hentry].
    rewrite (loadCache_hit g fuel (edgeSource edge) s entry) by done.
    assert (edgeArray s edge = entryOutput entry ≫= (λ o, o !! sourceHandle edge))
      as Harr by (unfold edgeArray; by rewrite Hentry).
    destruct (entryOutput entry ≫= _) as [handleInput|].
    2:{ intros Hg p a Hp. apply (Hlift inputData s); [done|]. by eapply IH. }
    destruct (inputData !! targetHandle edge) as [a0|] eqn:Hth.
    + intros Hg p a Hp.
      apply (Hlift inputData
               (setHeap (push (heap s) a0 (readArray (heap s) handleInput)) s));
        [done|].
      by eapply (IH inputData
                   (setHeap (push (heap s) a0 (readArray (heap s) handleInput)) s)).
    + intros Hg p a Hp.
      destruct (IH _ _ _ _ Hcached' Hg p a Hp) as [Hi|Hex].
      * destruct (decide (p = targetHandle edge)) as [->|Hne].
        -- rewrite lookup_insert_eq in Hi. injection Hi as <-.
           right. exists edge. split; [apply list_elem_of_here|]. by rewrite Harr.
        -- rewrite lookup_insert_ne in Hi by done. by left.
      * apply (Hlift inputData s); [done|]. by right.
Qed.

(** X11. With the sources of all edges into a node in the table, and the
    arrays the loop reads from them pairwise distinct, the loop returns a
    bundle that reads as the specification says of the upstream outputs as
    they were before the loop: each entry is their concatenation in edge
    order, and a port without an entry has nothing to concatenate.  The
    table keeps its entries, but not all their values: an array that is
    not in the bundle reads as before, and an array that is in the bundle
    is an array of an upstream entry, read by an edge into that port, and
    now holds the whole concatenation; the upstream entry reads
    differently as soon as a second edge into the port carries data. *)
Theorem distinct_arrays_concatenate g fuel n s :
  (∀ e, e ∈ edges g → edgeTarget e = n →
        is_Some (pipeCache s !! edgeSource e)) →
  NoDup (arraysRead s n (edges g)) →
  (∀ arr, arr ∈ arraysRead s n (edges g) → arr < length (heap s)) →
  ∃ inputData s1,
    gatherInput (loadCache g (S fuel)) n (edges g) ∅ s = Returned inputData s1
    ∧ pipeCache s1 = pipeCache s
    ∧ (∀ p,
         bundleValue (heap s1) inputData !! p
         = match inputData !! p with
           | Some _ => Some (specInput g s n p)
           | None => None
           end
         ∧ (inputData !! p = None → specInput g s n p = []))
    ∧ (∀ arr, (∀ p, inputData !! p ≠ Some arr) →
              heap s1 !! arr = heap s !! arr)
    ∧ (∀ p arr, inputData !! p = Some arr →
         ∃ e, e ∈ edges g ∧ edgeTarget e = n ∧ targetHandle e = p
              ∧ edgeArray s e = Some arr).
Proof.
  intros Hcached Hnd Hvalid.
  destruct (gatherInput_concat g fuel n s (edges g) ∅ s eq_refl eq_refl
              Hcached Hnd)
    as (inputData & s1 & Hg & Hc & Hval).
  { intros arr Ha. split; [by apply Hvalid|done]. }
  { intros p a. by rewrite lookup_empty. }
  { intros p q a. by rewrite lookup_empty. }
  exists inputData, s1. split; [done|]. split; [done|]. split.
  - intros p. specialize (Hval p). unfold bundleValue. rewrite lookup_fmap.
    rewrite lookup_empty in Hval.
    destruct (inputData !! p) as [a|]; simpl.
    + split; [|done]. by rewrite Hval.
    + destruct Hval as [_ Hr]. done.
  - split; [by destruct (gatherInput_frame _ _ _ _ _ _ _ _ Hcached Hg)|].
    intros p arr Hp.
    destruct (gatherInput_sources _ _ _ _ _ _ _ _ Hcached Hg p arr Hp)
      as [Hi|Hex]; [by rewrite lookup_empty in Hi|done].
Qed.

(** ** Labels and the layout of handles *)

(** X12. A truncated label has at most five code units and starts as the label
    does; truncating again changes nothing, and a label is left as it is
    exactly when it has at most five units. *)
Theorem truncateLabel_bounded label :
  (length (truncateLabel label) ≤ 5)%nat
  ∧ take 4 (truncateLabel label) = take 4 label
  ∧ truncateLabel (truncateLabel label) = truncateLabel label
  ∧ (truncateLabel label = label ↔ (length label ≤ 5)%nat).
Proof.
  unfold truncateLabel. destruct (decide (5 < length label)) as [Hlong|Hshort].
  - assert (length (take 4 label ++ [ellipsis]) = 5) as Hlen
      by (rewrite length_app, length_take_le by lia; done).
    split; [lia|]. split.
    + rewrite take_app_le by (rewrite length_take_le; lia).
      rewrite take_take. by replace (4 `min` 4) with 4 by lia.
    + split; [rewrite decide_False by lia; done|].
      split; [|lia]. intros Heq. rewrite Heq in Hlen. lia.
  - split; [lia|]. split; [done|]. split; [by rewrite decide_False|].
    split; [lia|done].
Qed.

Lemma pushGrouped_concat grp handle grouped :
  concat (pushGrouped grp handle grouped).*2 ≡ₚ concat grouped.*2 ++ [handle].
Proof.
  induction grouped as [|[k hs] rest IH]; simpl; [done|].
  destruct (decide (k = grp)); simpl.
  - rewrite <- !(assoc_L (++)). f_equiv. apply Permutation_app_comm.
  - rewrite IH. by rewrite (assoc_L (++)).
Qed.

Lemma pushGrouped_keys grp handle grouped :
  (pushGrouped grp handle grouped).*1
  = if decide (grp ∈ grouped.*1) then grouped.*1 else grouped.*1 ++ [grp].
Proof.
  induction grouped as [|[k hs] rest IH].
  - destruct (decide (grp ∈ (@nil (string * list HandleInfo)).*1)) as [Hin|Hin];
      [by apply elem_of_nil in Hin|done].
  - change (((k, hs) :: rest).*1) with (k :: rest.*1).
    cbn [pushGrouped]. destruct (decide (k = grp)) as [->|Hne].
    + change (((grp, hs ++ [handle]) :: rest).*1) with (grp :: rest.*1).
      destruct (decide (grp ∈ grp :: rest.*1)) as [Hin|Hin]; [done|].
      exfalso. apply Hin, list_elem_of_here.
    + change (((k, hs) :: pushGrouped grp handle rest).*1)
        with (k :: (pushGrouped grp handle rest).*1).
      rewrite IH.
      destruct (decide (grp ∈ rest.*1)) as [Hin|Hin];
        destruct (decide (grp ∈ k :: rest.*1)) as [Hin'|Hin']; try done.
      * exfalso. apply Hin'. by apply list_elem_of_further.
      * exfalso. apply elem_of_cons in Hin' as [?|?]; [congruence|done].
Qed.

Lemma pushGrouped_new grp handle grouped :
  grp ∉ grouped.*1 → pushGrouped grp handle grouped = grouped ++ [(grp, [handle])].
Proof.
  induction grouped as [|[k hs] rest IH]; simpl; [done|]. intros Hin.
  rewrite decide_False by (intros ->; apply Hin, list_elem_of_here).
  rewrite IH; [done|]. intros ?. by apply Hin, list_elem_of_further.
Qed.

Lemma pushGrouped_old grp handle grouped :
  NoDup grouped.*1 → grp ∈ grouped.*1 →
  pushGrouped grp handle grouped
  = (λ kv : string * list HandleInfo,
       if decide (kv.1 = grp) then (kv.1, kv.2 ++ [handle]) else kv) <$> grouped.
Proof.
  induction grouped as [|[k hs] rest IH]; simpl; [by intros _ ?%elem_of_nil|].
  intros [Hk Hnd]%NoDup_cons Hin.
  destruct (decide (k = grp)) as [->|Hne]; simpl.
  - f_equal. clear IH Hin Hnd. induction rest as [|[k' hs'] rest IH]; [done|].
    simpl in *. rewrite decide_False by (intros ->; apply Hk, list_elem_of_here).
    f_equal. apply IH. intros ?. by apply Hk, list_elem_of_further.
  - f_equal. apply IH; [done|].
    by apply elem_of_cons in Hin as [?|?]; [congruence|].
Qed.

(** The state of the grouping loop after the handles [hs]. *)
Lemma groupHandles_spec hs :
  (groupHandles hs).1 = filter (λ h, group h = None) hs
  ∧ NoDup (groupHandles hs).2.*1
  ∧ Forall (λ h, match group h with
                 | Some k => k ∈ (groupHandles hs).2.*1
                 | None => True
                 end) hs
  ∧ Forall (λ kv, kv.2 ≠ [] ∧ kv.2 = filter (λ h, group h = Some kv.1) hs)
      (groupHandles hs).2
  ∧ (groupHandles hs).1 ++ concat (groupHandles hs).2.*2 ≡ₚ hs.
Proof.
  unfold groupHandles.
  induction hs as [|handle hs (Hu & Hnd & Hcov & Hgr & Hperm)] using rev_ind.
  - simpl. repeat split; try constructor.
  - rewrite foldl_snoc. set (acc := foldl groupStep ([], []) hs) in *.
    unfold groupStep. rewrite !filter_app.
    destruct (group handle) as [grp|] eqn:Hgrp; cbn [fst snd].
    + split.
      { rewrite Hu, filter_cons_False, filter_nil, app_nil_r; [done|].
        by rewrite Hgrp. }
      split.
      { rewrite pushGrouped_keys. destruct (decide (grp ∈ acc.2.*1)); [done|].
        apply NoDup_app. split; [done|]. split; [|apply NoDup_singleton].
        by intros x Hx ->%list_elem_of_singleton. }
      split.
      { apply Forall_app. split.
        - eapply Forall_impl; [exact Hcov|]. intros h. simpl.
          destruct (group h) as [k|]; [|done]. rewrite pushGrouped_keys.
          destruct (decide (grp ∈ acc.2.*1)); [done|].
          intros ?. apply elem_of_app. by left.
        - constructor; [|constructor]. rewrite Hgrp, pushGrouped_keys.
          destruct (decide (grp ∈ acc.2.*1)); [done|].
          apply elem_of_app. right. apply list_elem_of_here. }
      split.
      { destruct (decide (grp ∈ acc.2.*1)) as [Hin|Hin].
        - rewrite pushGrouped_old by done. apply Forall_fmap.
          eapply Forall_impl; [exact Hgr|]. intros [k l] [Hne Hl].
          unfold compose. cbn beta. cbn [fst snd] in *.
          destruct (decide (k = grp)) as [->|Hk]; cbn [fst snd].
          + cbn [fst snd]. split; [intros [_ ?]%app_eq_nil; done|].
            rewrite filter_app, filter_cons_True, filter_nil by done.
            by rewrite <- Hl.
          + split; [done|].
            rewrite filter_app, filter_cons_False, filter_nil, app_nil_r; [done|].
            rewrite Hgrp. congruence.
        - rewrite pushGrouped_new by done. apply Forall_app. split.
          + eapply Forall_impl; [exact Hgr|]. intros [k l] [Hne Hl]. cbn [fst snd] in *.
            split; [done|].
            rewrite filter_app, filter_cons_False, filter_nil, app_nil_r; [done|].
            rewrite Hgrp. intros [= Heq]. subst k. apply Hin.
            destruct l as [|h0 l]; [done|].
            assert (h0 ∈ filter (λ h, group h = Some grp) hs) as Hh0
              by (rewrite <- Hl; apply list_elem_of_here).
            apply list_elem_of_filter in Hh0 as [Hg0 Hh0].
            rewrite Forall_forall in Hcov. specialize (Hcov h0 Hh0).
            by rewrite Hg0 in Hcov.
          + constructor; [|constructor]. cbn [fst snd]. split; [done|].
            rewrite filter_app, filter_cons_True, filter_nil by done.
            destruct (filter (λ h, group h = Some grp) hs) as [|h0 l0] eqn:Hf;
              [done|]. exfalso.
            assert (h0 ∈ filter (λ h, group h = Some grp) hs) as Hh0
              by (rewrite Hf; apply list_elem_of_here).
            apply list_elem_of_filter in Hh0 as [Hg0 Hh0].
            rewrite Forall_forall in Hcov. specialize (Hcov h0 Hh0).
            by rewrite Hg0 in Hcov. }
      rewrite pushGrouped_concat, (assoc_L (++)). by rewrite Hperm.
    + split.
      { rewrite Hu, filter_cons_True, filter_nil by done. done. }
      split; [done|]. split.
      { apply Forall_app. split; [done|]. constructor; [|constructor].
        by rewrite Hgrp. }
      split.
      { eapply Forall_impl; [exact Hgr|]. intros [k l] [Hne Hl]. cbn [fst snd] in *.
        split; [done|].
        rewrite filter_app, filter_cons_False, filter_nil, app_nil_r; [done|].
        by rewrite Hgrp. }
      rewrite <- Hperm, <- !(assoc_L (++)). f_equiv. apply Permutation_app_comm.
Qed.

(** X13. The grouping loop of [renderHandles] and [InspectBoxPreview] is a
    stable partition: the ungrouped handles and the handles of each group
    are those of the declaration, in its order; every group is listed
    once and is not empty; and no handle is lost or repeated. *)
Theorem groupHandles_partition hs :
  (groupHandles hs).1 = filter (λ h, group h = None) hs
  ∧ NoDup (groupHandles hs).2.*1
  ∧ Forall (λ kv, kv.2 ≠ [] ∧ kv.2 = filter (λ h, group h = Some kv.1) hs)
      (groupHandles hs).2
  ∧ (groupHandles hs).1 ++ concat (groupHandles hs).2.*2 ≡ₚ hs.
Proof.
  destruct (groupHandles_spec hs) as (H1 & H2 & _ & H3 & H4). done.
Qed.

Lemma placedHandles_cons handle q els :
  placedHandles (HandleAt handle q :: els) = (handle, q) :: placedHandles els.
Proof. done. Qed.

Lemma placeHandles_cons p handle hs :
  placeHandles p (handle :: hs)
  = (HandleAt handle (S p) :: (placeHandles (S p) hs).1,
     (placeHandles (S p) hs).2).
Proof. done. Qed.

Lemma placeHandles_props hs : ∀ p,
  (placeHandles p hs).2 = p + length hs
  ∧ (placedHandles (placeHandles p hs).1).*1 = hs
  ∧ (placedHandles (placeHandles p hs).1).*2 = seq (S p) (length hs).
Proof.
  induction hs as [|handle hs IH]; intros p.
  - simpl. split; [lia|done].
  - destruct (IH (S p)) as (H1 & H2 & H3).
    rewrite placeHandles_cons. cbn [fst snd].
    rewrite placedHandles_cons, !fmap_cons, H1, H2, H3. cbn [fst snd length seq].
    split; [lia|done].
Qed.

Lemma placedHandles_app els1 els2 :
  placedHandles (els1 ++ els2) = placedHandles els1 ++ placedHandles els2.
Proof. unfold placedHandles. apply omap_app. Qed.

Lemma placeGroups_props grouped : ∀ p,
  (placeGroups p grouped).2
    = p + length (concat grouped.*2) + length grouped * 2
  ∧ (placedHandles (placeGroups p grouped).1).*1 = concat grouped.*2
  ∧ Forall (λ q, p < q ∧ (q ≤ (placeGroups p grouped).2)%nat)
      (placedHandles (placeGroups p grouped).1).*2
  ∧ NoDup (placedHandles (placeGroups p grouped).1).*2.
Proof.
  induction grouped as [|[grp hs] rest IH]; intros p.
  - simpl. split; [lia|]. split; [done|]. split; constructor.
  - cbn [placeGroups fst snd].
    destruct (placeHandles_props hs (S p)) as (Hi1 & Hi2 & Hi3).
    destruct (IH (S (placeHandles (S p) hs).2)) as (Hr1 & Hr2 & Hr3 & Hr4).
    change (placedHandles
              (GroupAt grp (S p) (length hs)
               :: (placeHandles (S p) hs).1
                  ++ (placeGroups (S (placeHandles (S p) hs).2) rest).1))
      with (placedHandles
              ((placeHandles (S p) hs).1
               ++ (placeGroups (S (placeHandles (S p) hs).2) rest).1)).
    rewrite placedHandles_app, !fmap_app, Hi2, Hi3, Hr2.
    rewrite Hi1 in Hr1, Hr3, Hr4 |- *. split.
    { rewrite Hr1, fmap_cons. cbn [snd concat length]. rewrite length_app. lia. }
    split; [reflexivity|]. split.
    + apply Forall_app. split.
      * apply Forall_forall. intros q Hq%elem_of_seq. rewrite Hr1. lia.
      * eapply Forall_impl; [exact Hr3|]. intros q. simpl. lia.
    + apply NoDup_app. split; [apply NoDup_seq|]. split; [|done].
      intros q Hq%elem_of_seq Hq'. rewrite Forall_forall in Hr3.
      specialize (Hr3 q Hq'). simpl in Hr3. lia.
Qed.

(** X14. [renderHandles] gives every handle of the node exactly one position;
    the positions are pairwise distinct and lie strictly between [0] and
    the denominator of [handleOffset], so that every handle is drawn
    inside the height of the node; the count it returns is one less than
    that denominator. *)
Theorem renderHandles_layout hs :
  (renderHandles hs).2 + 1 = offsetDenominator hs
  ∧ (placedHandles (renderHandles hs).1).*1 ≡ₚ hs
  ∧ NoDup (placedHandles (renderHandles hs).1).*2
  ∧ Forall (λ q, 0 < q ∧ q < offsetDenominator hs)
      (placedHandles (renderHandles hs).1).*2.
Proof.
  unfold renderHandles, offsetDenominator. cbn [fst snd].
  destruct (groupHandles_spec hs) as (_ & _ & _ & _ & Hperm).
  destruct (placeHandles_props (groupHandles hs).1 0) as (Hu1 & Hu2 & Hu3).
  destruct (placeGroups_props (groupHandles hs).2
              (placeHandles 0 (groupHandles hs).1).2) as (Hg1 & Hg2 & Hg3 & Hg4).
  rewrite placedHandles_app, !fmap_app, Hu2, Hu3, Hg2.
  pose proof (Permutation_length Hperm) as Hlen. rewrite length_app in Hlen.
  simpl in Hu1. rewrite Hu1 in Hg1, Hg3, Hg4 |- *.
  split; [rewrite Hg1; lia|]. split; [done|]. split.
  - apply NoDup_app. split; [apply NoDup_seq|]. split; [|done].
    intros q Hq%elem_of_seq Hq'. rewrite Forall_forall in Hg3.
    specialize (Hg3 q Hq'). simpl in Hg3. lia.
  - apply Forall_app. split.
    + apply Forall_forall. intros q Hq%elem_of_seq. lia.
    + eapply Forall_impl; [exact Hg3|]. intros q. simpl. rewrite Hg1. lia.
Qed.

(** ** Entries as results of the mappers *)

(** Where no port aggregates, the loop keeps what the recursive calls
    keep. *)
Lemma gatherInput_invariant g load n (Q : Session → Prop) :
  singleEdgePorts g →
  (∀ m s entry s', load m s = Returned entry s' → Q s → Q s') →
  ∀ es done inputData s inputData' s',
    edges g = done ++ es →
    (∀ p, is_Some (inputData !! p) →
          ∃ e, e ∈ done ∧ edgeTarget e = n ∧ targetHandle e = p) →
    gatherInput load n es inputData s = Returned inputData' s' →
    Q s → Q s'.
Proof.
  intros Hports Hload.
  induction es as [|edge es IH]; simpl;
    intros done inputData s inputData' s' Hed Hinv.
  - by intros [= <- <-].
  - assert (edges g = (done ++ [edge]) ++ es) as Hed'
      by (by rewrite <- (assoc_L (++))).
    assert (∀ p, is_Some (inputData !! p) →
              ∃ e, e ∈ done ++ [edge] ∧ edgeTarget e = n ∧ targetHandle e = p)
      as Hinv'.
    { intros p Hp. destruct (Hinv p Hp) as (e & He & Hrest).
      exists e. split; [apply elem_of_app; by left|done]. }
    destruct (decide (edgeTarget edge = n)) as [Ht|Ht]; [|by eapply IH].
    destruct (load (edgeSource edge) s) as [entry s1| |] eqn:Hl; try done.
    pose proof (Hload _ _ _ _ Hl) as Hq1.
    destruct (entryOutput entry ≫= _) as [handleInput|].
    + destruct (inputData !! targetHandle edge) as [arr|] eqn:Hth.
      * exfalso. destruct (Hinv (targetHandle edge)) as (e & He & Hte & Hhe);
          [by rewrite Hth|].
        unfold singleEdgePorts in Hports. rewrite Hed, fmap_app in Hports.
        apply NoDup_app in Hports as (_ & Hdisj & _).
        apply (Hdisj (edgeTarget e, targetHandle e)).
        -- by apply (list_elem_of_fmap_2 (λ x, (edgeTarget x, targetHandle x))).
        -- rewrite Hte, Hhe, <- Ht. simpl. apply list_elem_of_here.
      * intros Hg Hq. eapply (IH _ _ _ _ _ Hed'); [|done|by apply Hq1].
        intros p Hp. destruct (decide (p = targetHandle edge)) as [->|Hne].
        -- exists edge. split; [|done]. apply elem_of_app. right.
           apply list_elem_of_here.
        -- rewrite lookup_insert_ne in Hp by done. by apply Hinv'.
    + intros Hg Hq. eapply IH; [done..|by apply Hq1].
Qed.

Lemma mapperResults_prefix g s s' :
  pipeCache s' = pipeCache s → heap s `prefix_of` heap s' →
  mapperResults g s → mapperResults g s'.
Proof.
  intros Hc Hp Hs x node mapper i o Hx Hn Hpv. rewrite Hc in Hx.
  destruct (Hs x node mapper i o Hx Hn Hpv) as (h & h' & Hm & Hh).
  exists h, h'. split; [done|]. by etrans.
Qed.

Lemma loadCache_mapperResults g fuel :
  mappersAllocate g → singleEdgePorts g → ∀ n s entry s',
  loadCache g fuel n s = Returned entry s' →
  mapperResults g s → mapperResults g s'.
Proof.
  intros Hmap Hports.
  induction fuel as [|fuel IH]; intros n s entry s'; simpl; [done|].
  destruct (pipeCache s !! n) as [e0|]; [by intros [= <- <-]|].
  destruct (nodes g !! n) as [node|] eqn:Hn; [|done].
  destruct (gatherInput _ _ _ _ _) as [inputData s1| |] eqn:Hg; try done.
  intros Hl Hs.
  assert (mapperResults g s1) as Hs1.
  { eapply (gatherInput_invariant g _ n (mapperResults g) Hports IH _ [] _ _ _ _
              eq_refl); [|done..].
    intros p [arr Hp]. by rewrite lookup_empty in Hp. }
  clear Hg Hs. revert Hl. unfold calcCache.
  destruct (pipeValue (data node)) as [mapper| |] eqn:Hpv.
  - destruct (existsb _ _).
    + intros [= <- <-] x node' mapper' i o. simpl.
      destruct (decide (x = n)) as [->|Hne];
        [by rewrite lookup_insert_eq|rewrite lookup_insert_ne by done].
      apply Hs1.
    + simpl. pose proof (Hmap n node mapper Hn Hpv inputData (heap s1)) as Hal.
      destruct (mapper inputData (heap s1)) as [o h'|e h'] eqn:Hm.
      * destruct (List.find _ _) as [hmiss|].
        -- intros [= <- <-] x node' mapper' i o'. simpl.
           destruct (decide (x = n)) as [->|Hne];
             [by rewrite lookup_insert_eq|rewrite lookup_insert_ne by done].
           intros Hx Hn' Hpv'.
           destruct (Hs1 x node' mapper' i o' Hx Hn' Hpv') as (h & h2 & Hm' & Hh).
           exists h, h2. split; [done|]. by etrans.
        -- intros [= <- <-] x node' mapper' i o'. simpl.
           destruct (decide (x = n)) as [->|Hne].
           ++ rewrite lookup_insert_eq, Hn. intros [= <- <-] [= <-].
              rewrite Hpv. intros [= <-]. by exists (heap s1), h'.
           ++ rewrite lookup_insert_ne by done. intros Hx Hn' Hpv'.
              destruct (Hs1 x node' mapper' i o' Hx Hn' Hpv')
                as (h & h2 & Hm' & Hh).
              exists h, h2. split; [done|]. by etrans.
      * intros [= <- <-] x node' mapper' i o'. simpl.
        destruct (decide (x = n)) as [->|Hne];
          [by rewrite lookup_insert_eq|rewrite lookup_insert_ne by done].
        intros Hx Hn' Hpv'.
        destruct (Hs1 x node' mapper' i o' Hx Hn' Hpv') as (h & h2 & Hm' & Hh).
        exists h, h2. split; [done|]. by etrans.
  - intros [= <- <-] x node' mapper' i o. simpl.
    destruct (decide (x = n)) as [->|Hne];
      [by rewrite lookup_insert_eq|rewrite lookup_insert_ne by done].
    apply Hs1.
  - intros [= <- <-] x node' mapper' i o. simpl.
    destruct (decide (x = n)) as [->|Hne];
      [by rewrite lookup_insert_eq|rewrite lookup_insert_ne by done].
    apply Hs1.
Qed.

Lemma loadAll_mapperResults g fuel ids :
  mappersAllocate g → singleEdgePorts g → ∀ s s',
  loadAll g fuel ids s = Returned tt s' →
  mapperResults g s → mapperResults g s'.
Proof.
  intros Hmap Hports. induction ids as [|n ids IH]; simpl; intros s s';
    [by intros [= <-]|].
  destruct (loadCache g fuel n s) as [entry s1| |] eqn:Hl; try done.
  intros Hrest Hs. eapply IH; [done|]. by eapply loadCache_mapperResults.
Qed.

(** X16. Where every input port has at most one incoming edge and the mappers
    only allocate, the table after a recalculation is coherent: the output
    of every computed node is the bundle its mapper returned for the input
    shown with it, and the arrays are still as that call left them. *)
Theorem computed_entries_are_mapper_results g keys fuel s s' n node mapper i o :
  mappersAllocate g → singleEdgePorts g →
  pipeCacheValid s = false →
  recalculate g keys fuel s = Returned tt s' →
  nodes g !! n = Some node → pipeValue (data node) = OkPipe mapper →
  pipeCache s' !! n = Some (OutputCacheEntry i o) →
  ∃ h h', mapper i h = Returns o h'
          ∧ ∀ arr values, h' !! arr = Some values → heap s' !! arr = Some values.
Proof.
  intros Hmap Hports Hv Hr Hn Hpv Hc.
  unfold recalculate in Hr. rewrite Hv in Hr.
  destruct (loadAll _ _ _ _) as [[] s1| |] eqn:Hl; try done.
  injection Hr as <-.
  assert (mapperResults g s1) as Hres.
  { eapply loadAll_mapperResults; [done|done|exact Hl|].
    intros x node' mapper' i' o'. simpl. by rewrite lookup_empty. }
  destruct (Hres n node mapper i o Hc Hn Hpv) as (h & h' & Hm & Hh).
  exists h, h'. split; [done|]. intros arr values Ha.
  by eapply prefix_lookup_Some.
Qed.

(** ** demonode.tsx *)

(** X17. The effect of [DemoInputNode] settles: the message it sends makes the
    pipe of the node [Ok], and at the next render the effect sends
    nothing. *)
Theorem demo_effect_settles DEMO_DOCUMENT g s n node message :
  nodes g !! n = Some node →
  DemoInputNode_effect DEMO_DOCUMENT n (pipeValue (data node)) = Some message →
  ∃ g' node',
    (handleNodeMessage message g s).1 = Some g'
    ∧ nodes g' !! n = Some node'
    ∧ pipeValue (data node') = OkPipe (textMapper DEMO_DOCUMENT)
    ∧ DemoInputNode_effect DEMO_DOCUMENT n (pipeValue (data node')) = None.
Proof.
  intros Hn Heff.
  assert (message = Pipe.OkMessage n (textMapper DEMO_DOCUMENT)) as ->
    by (unfold DemoInputNode_effect in Heff;
        destruct (pipeValue (data node)); congruence).
  unfold handleNodeMessage. simpl. rewrite Hn. simpl.
  eexists _, _. split; [done|]. simpl. rewrite lookup_insert_eq. done.
Qed.

(** ** The mappers of nodes.tsx *)

Lemma allocates_textMapper text : allocates (textMapper text).
Proof. intros inputData h. simpl. by eexists. Qed.

Lemma allocates_flatMapper f : allocates (flatMapper f).
Proof.
  intros inputData h. unfold flatMapper.
  destruct (inputData !! "data-in"); [by eexists|done].
Qed.

Lemma mappersAllocate_chainGraph : mappersAllocate chainGraph.
Proof.
  intros n node mapper Hn Hpv. unfold chainGraph in Hn. simpl in Hn.
  apply lookup_insert_Some in Hn as [[<- <-]|[_ Hn]].
  { injection Hpv as <-. apply allocates_textMapper. }
  apply lookup_insert_Some in Hn as [[<- <-]|[_ Hn]].
  { injection Hpv as <-. apply allocates_flatMapper. }
  by rewrite lookup_empty in Hn.
Defined.

Lemma singleEdgePorts_chainGraph : singleEdgePorts chainGraph.
Proof. apply (bool_decide_unpack _). vm_compute. reflexivity. Defined.

Lemma forInOrder_aggregation mapper :
  forInOrder (nodes (aggregationGraph mapper)) ["0"; "1"; "2"].
Proof.
  split; [apply (bool_decide_unpack _); vm_compute; reflexivity|].
  vm_compute. reflexivity.
Defined.

Lemma forInOrder_chainGraph : forInOrder (nodes chainGraph) ["0"; "2"].
Proof.
  split; [apply (bool_decide_unpack _); vm_compute; reflexivity|].
  vm_compute. reflexivity.
Defined.

(** ** Instances of the further properties *)

Lemma recalculated_entries_fit_witness :
  ∃ entry,
    pipeCache (stateOf (recalculate chainGraph ["0"; "2"] 3 s0)) !! "2"
      = Some entry
    ∧ entryFits (mkNode RegexNode_handles (OkPipe (flatMapper (λ v, [v])))) entry.
Proof.
  apply (recalculated_entries_fit chainGraph ["0"; "2"] 3 s0).
  - exact forInOrder_chainGraph.
  - reflexivity.
  - vm_compute. reflexivity.
  - vm_compute. reflexivity.
Defined.

Lemma message_reaches_cache_witness :
  (∀ k,
     is_Some (pipeCache
                (stateOf (recalculate
                   {| nodes :=
                        <["2" := mkNode RegexNode_handles (ErrPipe "Invalid regular expression")]>
                          (nodes chainGraph);
                      edges := edges chainGraph |}
                   ["0"; "2"] 3 (setValid false s0))) !! k)
     ↔ is_Some (nodes chainGraph !! k))
  ∧ ∃ entry node,
      pipeCache
        (stateOf (recalculate
           {| nodes :=
                <["2" := mkNode RegexNode_handles (ErrPipe "Invalid regular expression")]>
                  (nodes chainGraph);
              edges := edges chainGraph |}
           ["0"; "2"] 3 (setValid false s0))) !! "2" = Some entry
      ∧ nodes chainGraph !! "2" = Some node
      ∧ match entry with
        | ErrorCacheEntry _ e => e = "Invalid regular expression"
        | OutputCacheEntry _ _ => False
        end.
Proof.
  apply (message_reaches_cache
           (Pipe.ErrMessage "2" "Invalid regular expression") chainGraph s0
           {| nodes :=
                <["2" := mkNode RegexNode_handles (ErrPipe "Invalid regular expression")]>
                  (nodes chainGraph);
              edges := edges chainGraph |}
           (setValid false s0) ["0"; "2"] 3).
  - vm_compute. reflexivity.
  - split; [apply (bool_decide_unpack _); vm_compute; reflexivity|].
    vm_compute. reflexivity.
  - vm_compute. reflexivity.
Defined.

Lemma upstream_errors_contribute_nothing_witness :
  loadCache unconfiguredGraph 2 "2" (stateOf (loadCache unconfiguredGraph 1 "0" s0))
  = loadCache {| nodes := nodes unconfiguredGraph; edges := [] |} 1 "2"
      (stateOf (loadCache unconfiguredGraph 1 "0" s0)).
Proof.
  apply (upstream_errors_contribute_nothing unconfiguredGraph 0 "2").
  - vm_compute. reflexivity.
  - intros e He _. simpl in He. apply list_elem_of_singleton in He as ->.
    exists (ErrorCacheEntry ∅ "Node configuration is invalid").
    split; [vm_compute; reflexivity|exact I].
Defined.

Lemma recalculate_returns_iff_witness :
  (∃ fuel s',
     recalculate (aggregationGraph (flatMapper (λ v, [v]))) ["0"; "1"; "2"]
       fuel s0 = Returned tt s')
  ↔ ∃ rank, resolvable (aggregationGraph (flatMapper (λ v, [v]))) rank.
Proof.
  apply (recalculate_returns_iff (aggregationGraph (flatMapper (λ v, [v])))
           ["0"; "1"; "2"] s0).
  - apply (bool_decide_unpack _). vm_compute. reflexivity.
  - exact (forInOrder_aggregation (flatMapper (λ v, [v]))).
  - reflexivity.
Defined.

Lemma appendEdge_adds e l x : x ∈ appendEdge e l → x = e ∨ x ∈ l.
Proof.
  unfold appendEdge. intros [?|?%list_elem_of_singleton]%elem_of_app; auto.
Defined.

Lemma appendEdge_has e l : e ∈ appendEdge e l.
Proof. unfold appendEdge. apply elem_of_app. right. apply list_elem_of_here. Defined.

Lemma appendEdge_keeps e l x : x ∈ l → x ∈ appendEdge e l.
Proof. unfold appendEdge. intros ?. apply elem_of_app. by left. Defined.

Lemma onConnect_keeps_noSelfLoop_witness :
  noSelfLoop
    (onConnect appendEdge (mkEdge "1" "text-out" "2" "data-in")
       ([mkEdge "0" "text-out" "2" "data-in"], true)).1.
Proof.
  apply (onConnect_keeps_noSelfLoop appendEdge).
  - exact appendEdge_adds.
  - intros e He. apply list_elem_of_singleton in He as ->. simpl. discriminate.
Defined.

Lemma onConnect_idempotent_witness :
  onConnect appendEdge (mkEdge "1" "text-out" "2" "data-in")
    (onConnect appendEdge (mkEdge "1" "text-out" "2" "data-in")
       ([mkEdge "0" "text-out" "2" "data-in"], true))
  = onConnect appendEdge (mkEdge "1" "text-out" "2" "data-in")
      ([mkEdge "0" "text-out" "2" "data-in"], true).
Proof.
  apply (onConnect_idempotent appendEdge).
  intros l. apply appendEdge_has.
Defined.

Lemma onConnect_closes_cycle_witness :
  (onConnect appendEdge (mkEdge "2" "data-out" "0" "data-in")
     ([mkEdge "0" "data-out" "2" "data-in"], true)).2 = false
  ∧ recalculate
      {| nodes :=
           <["0" := mkNode RegexNode_handles (OkPipe (flatMapper (λ v, [v])))]>
           (<["2" := mkNode RegexNode_handles (OkPipe (flatMapper (λ v, [v])))]> ∅);
         edges :=
           (onConnect appendEdge (mkEdge "2" "data-out" "0" "data-in")
              ([mkEdge "0" "data-out" "2" "data-in"], true)).1 |}
      ["0"; "2"] 7 s0 ≠ Returned tt s0.
Proof.
  apply (onConnect_closes_cycle appendEdge _ _ true
           (mkEdge "0" "data-out" "2" "data-in")).
  - intros l. apply appendEdge_has.
  - intros l x. apply appendEdge_keeps.
  - apply list_elem_of_here.
  - reflexivity.
  - reflexivity.
  - simpl. discriminate.
  - vm_compute. reflexivity.
  - vm_compute. eexists. reflexivity.
  - vm_compute. eexists. reflexivity.
  - split; [apply (bool_decide_unpack _); vm_compute; reflexivity|].
    vm_compute. reflexivity.
  - reflexivity.
Defined.

Lemma single_edge_ports_keep_entries_witness :
  (∀ arr values,
     heap (stateOf (loadCache chainGraph 1 "0" s0)) !! arr = Some values →
     heap (stateOf (loadCache chainGraph 2 "2"
                      (stateOf (loadCache chainGraph 1 "0" s0)))) !! arr
     = Some values)
  ∧ (∀ m stored,
       pipeCache (stateOf (loadCache chainGraph 1 "0" s0)) !! m = Some stored →
       pipeCache (stateOf (loadCache chainGraph 2 "2"
                             (stateOf (loadCache chainGraph 1 "0" s0)))) !! m
       = Some stored).
Proof.
  apply (single_edge_ports_keep_entries chainGraph 2 "2"
           (stateOf (loadCache chainGraph 1 "0" s0))
           (OutputCacheEntry (<["data-in" := 0]> ∅) (<["data-out" := 1]> ∅))).
  - exact mappersAllocate_chainGraph.
  - exact singleEdgePorts_chainGraph.
  - vm_compute. reflexivity.
Defined.

Lemma distinct_arrays_concatenate_witness :
  ∃ inputData s1,
    gatherInput (loadCache (aggregationGraph (flatMapper (λ v, [v]))) 1) "2"
      (edges (aggregationGraph (flatMapper (λ v, [v])))) ∅
      (stateOf (loadAll (aggregationGraph (flatMapper (λ v, [v]))) 1
                  ["0"; "1"] s0))
    = Returned inputData s1
    ∧ pipeCache s1
      = pipeCache (stateOf (loadAll (aggregationGraph (flatMapper (λ v, [v]))) 1
                              ["0"; "1"] s0))
    ∧ (∀ p,
         bundleValue (heap s1) inputData !! p
         = match inputData !! p with
           | Some _ =>
             Some (specInput (aggregationGraph (flatMapper (λ v, [v])))
                     (stateOf (loadAll (aggregationGraph (flatMapper (λ v, [v])))
                                 1 ["0"; "1"] s0)) "2" p)
           | None => None
           end
         ∧ (inputData !! p = None →
            specInput (aggregationGraph (flatMapper (λ v, [v])))
              (stateOf (loadAll (aggregationGraph (flatMapper (λ v, [v])))
                          1 ["0"; "1"] s0)) "2" p = []))
    ∧ (∀ arr, (∀ p, inputData !! p ≠ Some arr) →
              heap s1 !! arr
              = heap (stateOf (loadAll
                                 (aggregationGraph (flatMapper (λ v, [v]))) 1
                                 ["0"; "1"] s0)) !! arr)
    ∧ (∀ p arr, inputData !! p = Some arr →
         ∃ e, e ∈ edges (aggregationGraph (flatMapper (λ v, [v])))
              ∧ edgeTarget e = "2" ∧ targetHandle e = p
              ∧ edgeArray
                  (stateOf (loadAll (aggregationGraph (flatMapper (λ v, [v])))
                              1 ["0"; "1"] s0)) e = Some arr).
Proof.
  apply (distinct_arrays_concatenate
           (aggregationGraph (flatMapper (λ v, [v]))) 0 "2").
  - intros e He _. simpl in He.
    apply elem_of_cons in He as [->|He];
      [|apply list_elem_of_singleton in He as ->];
      vm_compute; eexists; reflexivity.
  - apply (bool_decide_unpack _). vm_compute. reflexivity.
  - intros arr Ha.
    assert (arr = 0 ∨ arr = 1) as [-> | ->].
    { vm_compute in Ha. apply elem_of_cons in Ha as [->|Ha]; [by left|].
      apply list_elem_of_singleton in Ha as ->. by right. }
    + vm_compute. lia.
    + vm_compute. lia.
Defined.

Lemma computed_entries_are_mapper_results_witness :
  ∃ h h',
    flatMapper (λ v, [v]) (<["data-in" := 0]> ∅) h
      = Returns (<["data-out" := 1]> ∅) h'
    ∧ ∀ arr values, h' !! arr = Some values →
        heap (stateOf (recalculate chainGraph ["0"; "2"] 3 s0)) !! arr
        = Some values.
Proof.
  apply (computed_entries_are_mapper_results chainGraph ["0"; "2"] 3 s0 _ "2"
           (mkNode RegexNode_handles (OkPipe (flatMapper (λ v, [v]))))).
  - exact mappersAllocate_chainGraph.
  - exact singleEdgePorts_chainGraph.
  - reflexivity.
  - vm_compute. reflexivity.
  - vm_compute. reflexivity.
  - reflexivity.
  - vm_compute. reflexivity.
Defined.

Lemma demo_effect_settles_witness :
  ∃ g' node',
    (handleNodeMessage (Pipe.OkMessage "0" (textMapper "<html></html>"))
       unconfiguredGraph s0).1 = Some g'
    ∧ nodes g' !! "0" = Some node'
    ∧ pipeValue (data node') = OkPipe (textMapper "<html></html>")
    ∧ DemoInputNode_effect "<html></html>" "0" (pipeValue (data node')) = None.
Proof.
  apply (demo_effect_settles "<html></html>" unconfiguredGraph s0 "0"
           (mkNode TextInputNode_handles BadConfigPipe)).
  - vm_compute. reflexivity.
  - reflexivity.
Defined.

(** ** The feed mapper *)

Lemma elementsNamed_feedItems feedType tl ll d a (ids : list nat) :
  elementsNamed (match feedType with RSS => "item" | Atom => "entry" end)
    (feedItem feedType tl ll d a <$> ids)
  = feedItem feedType tl ll d a <$> ids.
Proof.
  induction ids as [|i ids IH]; [done|].
  rewrite fmap_cons. unfold elementsNamed in *.
  rewrite filter_cons_True; [by rewrite IH|].
  by destruct feedType.
Qed.

Lemma itemField_feedItem feedType tl ll d a i :
  itemField feedType ItemTitle (feedItem feedType tl ll d a i) = tl !! i
  ∧ itemField feedType ItemLink (feedItem feedType tl ll d a i) = ll !! i
  ∧ itemField feedType ItemDescription (feedItem feedType tl ll d a i)
    = d ≫= (λ l, l !! i)
  ∧ itemField feedType ItemAuthor (feedItem feedType tl ll d a i)
    = a ≫= (λ l, l !! i).
Proof.
  unfold feedItem.
  destruct (tl !! i), (ll !! i), (d ≫= _), (a ≫= _), feedType;
    repeat split; vm_compute; reflexivity.
Qed.

Lemma elementsNamed_cons name n l :
  elementsNamed name (n :: l)
  = if decide (tagOf n = Some name) then n :: elementsNamed name l
    else elementsNamed name l.
Proof. unfold elementsNamed. by rewrite filter_cons. Qed.

Ltac elements_step :=
  rewrite elementsNamed_cons;
  (rewrite decide_True by done) || (rewrite decide_False by done).

Ltac channel_step :=
  elements_step; change (elementsNamed _ []) with (@nil XMLNode);
  cbn [mbind list_bind childrenOf createElement default from_option
       Datatypes.id app]; rewrite ?app_nil_r.

Lemma feedEntries_feedRoot feedType tl ll dl lang items :
  elementsNamed (match feedType with RSS => "item" | Atom => "entry" end) items
  = items →
  feedEntries feedType [feedRoot feedType tl ll dl lang items] = items.
Proof.
  intros Hi.
  destruct feedType, lang as [l|]; unfold feedEntries, feedChannel, feedRoot;
    cbn -[elementsNamed]; rewrite ?app_nil_r.
  all: channel_step.
  1,2: channel_step.
  all: repeat elements_step; exact Hi.
Qed.

Lemma elementsNamed_other_feedItems feedType tl ll d a (ids : list nat) name :
  name ≠ match feedType with RSS => "item" | Atom => "entry" end →
  elementsNamed name (feedItem feedType tl ll d a <$> ids) = [].
Proof.
  intros Hne. induction ids as [|i ids IH]; [done|].
  rewrite fmap_cons, elementsNamed_cons, decide_False; [done|].
  destruct feedType; simpl; congruence.
Qed.

Lemma feedField_feedRoot feedType t ts l ls d ds lang items :
  elementsNamed "language" items = [] →
  feedField feedType FeedTitle
    [feedRoot feedType (t :: ts) (l :: ls) (d :: ds) lang items] = Some t
  ∧ feedField feedType FeedLink
      [feedRoot feedType (t :: ts) (l :: ls) (d :: ds) lang items] = Some l
  ∧ feedField feedType FeedDescription
      [feedRoot feedType (t :: ts) (l :: ls) (d :: ds) lang items] = Some d
  ∧ feedField feedType FeedLanguage
      [feedRoot feedType (t :: ts) (l :: ls) (d :: ds) lang items]
    = match lang with
      | None => None
      | Some [] =>
        Some (match feedType with RSS => "" | Atom => "undefined" end)
      | Some (v :: _) => Some v
      end.
Proof.
  intros Hi.
  destruct feedType, lang as [[|v vs]|]; repeat split;
    try (vm_compute; reflexivity).
  unfold feedField, feedChannel, feedRoot.
  cbn -[elementsNamed]. rewrite ?app_nil_r.
  channel_step. channel_step.
  cbn [head childrenOf createElement default from_option Datatypes.id app].
  rewrite app_nil_r. repeat elements_step. by rewrite Hi.
Qed.

Lemma FeedOutputNode_map_returns serializeToString feedType input h
    titleList linkList descriptionList itemTitle itemLink :
  portValue h input "title" = Some titleList →
  portValue h input "link" = Some linkList →
  portValue h input "description" = Some descriptionList →
  portValue h input "item-title" = Some itemTitle →
  portValue h input "item-link" = Some itemLink →
  FeedOutputNode_map serializeToString feedType input h
  = Returns {["feed-out" := length h]}
      (h ++ [[serializeToString
                [feedRoot feedType titleList linkList descriptionList
                   (portValue h input "language")
                   (feedItem feedType itemTitle itemLink
                      (portValue h input "item-description")
                      (portValue h input "item-author")
                    <$> seq 0 (itemCount itemTitle
                                 (portValue h input "item-description")))]]]).
Proof.
  intros Ht Hl Hd Hit Hil.
  unfold FeedOutputNode_map. rewrite Hit, Hil, Ht, Hl, Hd. simpl.
  by destruct (itemCount _ _).
Qed.

(** X18. Given the five ports that are not optional, the feed mapper returns
    one new array holding one string, the serialization of a document with
    [max(#item-title, #item-description)] items; item [i] carries the
    [i]-th value of each of the four item ports where there is one, so
    values of [item-link] and [item-author] past that count are dropped. *)
Theorem feed_items_read_back serializeToString feedType input h
    titleList linkList descriptionList itemTitle itemLink :
  portValue h input "title" = Some titleList →
  portValue h input "link" = Some linkList →
  portValue h input "description" = Some descriptionList →
  portValue h input "item-title" = Some itemTitle →
  portValue h input "item-link" = Some itemLink →
  ∃ doc,
    FeedOutputNode_map serializeToString feedType input h
      = Returns {["feed-out" := length h]} (h ++ [[serializeToString doc]])
    ∧ length (feedEntries feedType doc)
      = itemCount itemTitle (portValue h input "item-description")
    ∧ ∀ i item, feedEntries feedType doc !! i = Some item →
        itemField feedType ItemTitle item = itemTitle !! i
        ∧ itemField feedType ItemLink item = itemLink !! i
        ∧ itemField feedType ItemDescription item
          = portValue h input "item-description" ≫= (λ l, l !! i)
        ∧ itemField feedType ItemAuthor item
          = portValue h input "item-author" ≫= (λ l, l !! i).
Proof.
  intros Ht Hl Hd Hit Hil.
  set (count := itemCount itemTitle (portValue h input "item-description")).
  set (items := feedItem feedType itemTitle itemLink
                  (portValue h input "item-description")
                  (portValue h input "item-author") <$> seq 0 count).
  exists [feedRoot feedType titleList linkList descriptionList
            (portValue h input "language") items].
  rewrite feedEntries_feedRoot by apply elementsNamed_feedItems.
  split; [|split].
  - by apply FeedOutputNode_map_returns.
  - unfold items. by rewrite length_fmap, length_seq.
  - intros i item Hi. unfold items in Hi.
    apply list_lookup_fmap_Some in Hi as (j & -> & Hj).
    apply lookup_seq in Hj as [Hj _]. simpl in Hj. subst j.
    apply itemField_feedItem.
Qed.

(** X19. Only the first value of [title], [link] and [description] reaches the
    feed.  A [language] port that is wired but empty gives an empty
    [language] element in RSS and [lang="undefined"] in Atom. *)
Theorem feed_header_first_values serializeToString feedType input h
    t ts l ls d ds itemTitle itemLink :
  portValue h input "title" = Some (t :: ts) →
  portValue h input "link" = Some (l :: ls) →
  portValue h input "description" = Some (d :: ds) →
  portValue h input "item-title" = Some itemTitle →
  portValue h input "item-link" = Some itemLink →
  ∃ doc,
    FeedOutputNode_map serializeToString feedType input h
      = Returns {["feed-out" := length h]} (h ++ [[serializeToString doc]])
    ∧ feedField feedType FeedTitle doc = Some t
    ∧ feedField feedType FeedLink doc = Some l
    ∧ feedField feedType FeedDescription doc = Some d
    ∧ feedField feedType FeedLanguage doc
      = match portValue h input "language" with
        | None => None
        | Some [] =>
          Some (match feedType with RSS => "" | Atom => "undefined" end)
        | Some (v :: _) => Some v
        end.
Proof.
  intros Ht Hl Hd Hit Hil.
  set (count := itemCount itemTitle (portValue h input "item-description")).
  set (items := feedItem feedType itemTitle itemLink
                  (portValue h input "item-description")
                  (portValue h input "item-author") <$> seq 0 count).
  exists [feedRoot feedType (t :: ts) (l :: ls) (d :: ds)
            (portValue h input "language") items].
  split.
  - by apply FeedOutputNode_map_returns.
  - apply feedField_feedRoot. apply elementsNamed_other_feedItems.
    by destruct feedType.
Qed.

Lemma missingInput_false h inputData handle :
  missingInput h inputData handle = false → optional handle = None →
  ∃ arr v vs, inputData !! id handle = Some arr ∧ h !! arr = Some (v :: vs).
Proof.
  unfold missingInput, isOptional. intros Hm Ho.
  rewrite Ho in Hm. simpl in Hm.
  destruct (inputData !! id handle) as [arr|]; [|done].
  unfold readArray in Hm.
  destruct (h !! arr) as [[|v vs]|] eqn:Hh; simpl in Hm; [done| |done].
  by exists arr, v, vs.
Qed.

Lemma missingInput_empty h inputData handle :
  missingInput h inputData handle = true →
  isOptional handle = false
  ∧ default [] (portValue h inputData (id handle)) = [].
Proof.
  unfold missingInput, portValue.
  destruct (isOptional handle); simpl; [done|].
  destruct (inputData !! id handle) as [arr|]; simpl; [|done].
  intros Hm. split; [done|]. by destruct (readArray h arr).
Qed.

Lemma readArray_new h values : readArray (h ++ [values]) (length h) = values.
Proof.
  unfold readArray. by rewrite lookup_app_r, Nat.sub_diag by lia.
Qed.

(** X20. The entry [loadCache] computes for a feed node is never "Error in node
    implementation": it is "Missing input", with one of the five required
    ports without a value, or an output whose [feed-out] holds exactly one
    serialized document. *)
Theorem feed_node_never_faults serializeToString feedType g fuel n s entry s' :
  nodes g !! n
    = Some (mkNode FeedOutputNode_handles
              (OkPipe (FeedOutputNode_map serializeToString feedType))) →
  pipeCache s !! n = None →
  loadCache g fuel n s = Returned entry s' →
  (∃ inputData p,
     entry = ErrorCacheEntry inputData "Missing input"
     ∧ p ∈ requiredFeedPorts
     ∧ default [] (portValue (heap s') inputData p) = [])
  ∨ (∃ inputData arr doc,
       entry = OutputCacheEntry inputData {["feed-out" := arr]}
       ∧ readArray (heap s') arr = [serializeToString doc]
       ∧ ∀ p, p ∈ requiredFeedPorts →
           default [] (portValue (heap s') inputData p) ≠ []).
Proof.
  intros Hn Hc Hl. destruct fuel as [|fuel]; [done|].
  simpl in Hl. rewrite Hc, Hn in Hl.
  destruct (gatherInput _ _ _ _ _) as [inputData s1| |]; [|done|done].
  cbn [mkNode data handles pipeValue target source FeedOutputNode_handles] in Hl.
  unfold calcCache in Hl.
  destruct (existsb _ _) eqn:He.
  - left. injection Hl as <- <-. apply existsb_exists in He as (x & Hx & Hm).
    apply missingInput_empty in Hm as [Ho Hm].
    exists inputData, (id x). split; [done|]. split; [|exact Hm].
    simpl in Hx. unfold requiredFeedPorts.
    repeat (destruct Hx as [<-|Hx]; [first [discriminate Ho | simpl; repeat constructor]|]).
    done.
  - right. simpl in He.
    apply orb_false_elim in He as [Ht He].
    apply orb_false_elim in He as [Hk He].
    apply orb_false_elim in He as [Hd He].
    apply orb_false_elim in He as [Hit He].
    apply orb_false_elim in He as [Hil _].
    apply missingInput_false in Ht as (at_ & vt & vst & Ht & Hat); [|done].
    apply missingInput_false in Hk as (ak & vk & vsk & Hk & Hak); [|done].
    apply missingInput_false in Hd as (ad & vd & vsd & Hd & Had); [|done].
    apply missingInput_false in Hit as (ait & vit & vsit & Hit & Hait); [|done].
    apply missingInput_false in Hil as (ail & vil & vsil & Hil & Hail); [|done].
    simpl in Ht, Hk, Hd, Hit, Hil.
    change (heap (recordCall n inputData s1)) with (heap s1) in Hl.
    rewrite (FeedOutputNode_map_returns _ _ _ _ (vt :: vst) (vk :: vsk)
               (vd :: vsd) (vit :: vsit) (vil :: vsil)) in Hl.
    2-6: unfold portValue, readArray.
    2: by rewrite Ht; simpl; rewrite Hat.
    2: by rewrite Hk; simpl; rewrite Hak.
    2: by rewrite Hd; simpl; rewrite Had.
    2: by rewrite Hit; simpl; rewrite Hait.
    2: by rewrite Hil; simpl; rewrite Hail.
    cbn [List.find] in Hl. unfold missingOutput in Hl.
    rewrite bool_decide_eq_false_2 in Hl
      by (simpl; rewrite lookup_singleton_eq; done).
    injection Hl as <- <-.
    eexists inputData, (length (heap s1)), _. split; [done|].
    cbn [heap setCache setHeap]. split; [apply readArray_new|].
    intros p Hp. unfold requiredFeedPorts in Hp. unfold portValue, readArray.
    repeat (apply elem_of_cons in Hp as [->|Hp];
      [first [rewrite Ht | rewrite Hk | rewrite Hd | rewrite Hit | rewrite Hil];
       simpl;
       first [rewrite (lookup_app_l_Some _ _ _ _ Hat)
             | rewrite (lookup_app_l_Some _ _ _ _ Hak)
             | rewrite (lookup_app_l_Some _ _ _ _ Had)
             | rewrite (lookup_app_l_Some _ _ _ _ Hait)
             | rewrite (lookup_app_l_Some _ _ _ _ Hail)]; done|]).
    by apply elem_of_nil in Hp.
Qed.

Lemma feed_items_read_back_witness :
  ∃ doc,
    FeedOutputNode_map sampleSerializer RSS sampleFeedInput sampleFeedHeap
      = Returns {["feed-out" := length sampleFeedHeap]}
          (sampleFeedHeap ++ [[sampleSerializer doc]])
    ∧ length (feedEntries RSS doc)
      = itemCount ["one"; "two"]
          (portValue sampleFeedHeap sampleFeedInput "item-description")
    ∧ ∀ i item, feedEntries RSS doc !! i = Some item →
        itemField RSS ItemTitle item = ["one"; "two"] !! i
        ∧ itemField RSS ItemLink item
          = ["http://news.example/1"; "http://news.example/2";
             "http://news.example/3"] !! i
        ∧ itemField RSS ItemDescription item
          = portValue sampleFeedHeap sampleFeedInput "item-description"
            ≫= (λ l, l !! i)
        ∧ itemField RSS ItemAuthor item
          = portValue sampleFeedHeap sampleFeedInput "item-author"
            ≫= (λ l, l !! i).
Proof.
  apply (feed_items_read_back sampleSerializer RSS sampleFeedInput
           sampleFeedHeap ["News"] ["http://news.example"] ["About"]);
    vm_compute; reflexivity.
Defined.

Lemma feed_header_first_values_witness :
  ∃ doc,
    FeedOutputNode_map sampleSerializer Atom sampleFeedInput sampleFeedHeap
      = Returns {["feed-out" := length sampleFeedHeap]}
          (sampleFeedHeap ++ [[sampleSerializer doc]])
    ∧ feedField Atom FeedTitle doc = Some "News"
    ∧ feedField Atom FeedLink doc = Some "http://news.example"
    ∧ feedField Atom FeedDescription doc = Some "About"
    ∧ feedField Atom FeedLanguage doc
      = match portValue sampleFeedHeap sampleFeedInput "language" with
        | None => None
        | Some [] => Some "undefined"
        | Some (v :: _) => Some v
        end.
Proof.
  apply (feed_header_first_values sampleSerializer Atom sampleFeedInput
           sampleFeedHeap "News" [] "http://news.example" [] "About" []
           ["one"; "two"]
           ["http://news.example/1"; "http://news.example/2";
            "http://news.example/3"]);
    vm_compute; reflexivity.
Defined.

Lemma feed_node_never_faults_witness :
  ∃ inputData arr doc,
    OutputCacheEntry
      (<["title" := 0]> (<["link" := 1]> (<["description" := 2]>
         (<["item-title" := 3]> (<["item-link" := 4]> ∅)))))
      {["feed-out" := 5]}
    = OutputCacheEntry inputData {["feed-out" := arr]}
    ∧ readArray
        (heap (stateOf (loadCache (wiredFeedGraph sampleSerializer RSS) 2
                          "Feed" s0))) arr
      = [sampleSerializer doc]
    ∧ ∀ p, p ∈ requiredFeedPorts →
        default []
          (portValue
             (heap (stateOf (loadCache (wiredFeedGraph sampleSerializer RSS)
                               2 "Feed" s0)))
             inputData p) ≠ [].
Proof.
  destruct (feed_node_never_faults sampleSerializer RSS
              (wiredFeedGraph sampleSerializer RSS) 2 "Feed" s0
              (OutputCacheEntry
                 (<["title" := 0]> (<["link" := 1]> (<["description" := 2]>
                    (<["item-title" := 3]> (<["item-link" := 4]> ∅)))))
                 {["feed-out" := 5]})
              (stateOf (loadCache (wiredFeedGraph sampleSerializer RSS) 2
                          "Feed" s0)))
    as [(inputData & p & Herr & _)|Hout].
  - reflexivity.
  - reflexivity.
  - vm_compute. reflexivity.
  - discriminate Herr.
  - exact Hout.
Defined.
